(** * Executive pipeline manager

    A shallow embedding of [ExecutivePipelineManager], the client-side
    controller of the executive opportunity board: loading and merging the
    two opportunity collections, the summary cards, filtering, sorting and
    kanban grouping, drag-and-drop status updates and the save form.

    Conventions of the embedding:
    - an opportunity object is a record whose optional fields are [option]s;
      [None] is an absent or [null] field, and for a date also the empty
      string: the values the controller's truth tests reject;
    - numbers are rationals: every finite double is one, and the sign of a
      difference of two finite doubles is the sign of the exact difference;
    - a date is the time value, in milliseconds, of its date string;
    - object literals used as dictionaries are [gmap]s from property names,
      read through the prototype chain of [Object.prototype];
    - the controller's fields, the requests it issues and what it writes to
      the page are threaded through a state-and-exception monad. *)

From Stdlib Require Import QArith Qround ZArith Ascii String List Lia Lqa.
From stdpp Require Import gmap strings list sorting pretty.

Open Scope Z_scope.

(** ** Opportunity records *)

Record opportunity := Opportunity {
  id : Z;
  type : option string;
  title : option string;
  company : option string;
  location : option string;
  compensation_range : option string;
  status : option string;
  priority_level : option string;
  ai_match_score : option Q;
  deadline : option Z;
  application_date : option string;
  created_at : option Z;
  requirements : list string;
  notes : option string;
  next_step : option string;
  source : option string;
  organizer : option string;
  speaking_fee : option string
}.

(** [opp.status = actualStatus]: assignment to one property. *)
Definition set_status (actualStatus : string) (opp : opportunity) : opportunity :=
  {| id := id opp; type := type opp; title := title opp; company := company opp;
     location := location opp; compensation_range := compensation_range opp;
     status := Some actualStatus; priority_level := priority_level opp;
     ai_match_score := ai_match_score opp; deadline := deadline opp;
     application_date := application_date opp; created_at := created_at opp;
     requirements := requirements opp; notes := notes opp;
     next_step := next_step opp; source := source opp;
     organizer := organizer opp; speaking_fee := speaking_fee opp |}.

(** ** JavaScript values *)

(** [v || d] on a string-valued property: the empty string is falsy. *)
Definition str_or (v : option string) (d : string) : string :=
  match v with
  | Some s => if decide (s = "") then d else s
  | None => d
  end.

(** [v || 0] on a number-valued property: zero is falsy too. *)
Definition num_or_0 (v : option Q) : Q :=
  match v with
  | Some q => if Qeq_bool q 0 then 0%Q else q
  | None => 0%Q
  end.

(** [Math.round]: the nearest integer, halves rounded up. *)
Definition Math_round (x : Q) : Z := Qfloor (x + (1 # 2)).

(** Reading [o[key]] on an object literal.  A name that is not an own
    property is looked up on [Object.prototype], whose properties are all
    functions or objects. *)
Definition object_prototype_keys : list string :=
  [ "constructor"; "__defineGetter__"; "__defineSetter__"; "hasOwnProperty";
    "__lookupGetter__"; "__lookupSetter__"; "isPrototypeOf";
    "propertyIsEnumerable"; "toString"; "valueOf"; "__proto__";
    "toLocaleString" ].

Inductive property (A : Type) :=
| Own (v : A)
| Inherited
| Missing.
Arguments Own {A} v.
Arguments Inherited {A}.
Arguments Missing {A}.

Definition get_property {A} (o : gmap string A) (key : string) : property A :=
  match o !! key with
  | Some v => Own v
  | None => if decide (key ∈ object_prototype_keys) then Inherited else Missing
  end.

(** The property name a status value is converted to. *)
Definition property_key (v : option string) : string := default "undefined" v.

(** Exceptions, and the completion of an evaluation. *)
Inductive exn :=
| TypeError (msg : string)
| RequestFailed.

Inductive completion (A : Type) :=
| Normal (a : A)
| Throw (err : exn).
Arguments Normal {A} a.
Arguments Throw {A} err.

(** ** [Array.prototype.sort]

    ECMAScript fixes the result of [sort] only for a consistent comparator
    (the stable sorted order); which calls are made to the comparator is
    left to the engine.  The model is insertion sort, the method engines use
    on short arrays: each item in turn is moved towards the front past the
    elements it must precede.  Engines differ in how they ask: V8 calls
    [comparefn(item, earlier)] and moves the item when the answer is
    negative, SpiderMonkey calls [comparefn(earlier, item)] and moves the
    item when the answer is positive.  For a comparator that answers
    [comparefn(x, y) < 0] exactly when [comparefn(y, x) > 0] the two agree. *)

Inductive engine :=
| LaterFirst    (* comparefn(item, earlier) < 0 *)
| EarlierFirst. (* comparefn(earlier, item) > 0 *)

Section ArraySort.
Context {A : Type}.
Variable e : engine.
Variable comparefn : A → A → option Q.

(** A comparator result that is [NaN] ([None]) counts as [+0]. *)
Definition SortCompare (x y : A) : Q := default 0%Q (comparefn x y).

Definition moves_before (item earlier : A) : bool :=
  match e with
  | LaterFirst =>
      match (SortCompare item earlier ?= 0)%Q with Lt => true | _ => false end
  | EarlierFirst =>
      match (SortCompare earlier item ?= 0)%Q with Gt => true | _ => false end
  end.

(** The sorted prefix is kept back to front: its head is the element
    just before the item being inserted. *)
Fixpoint insert_item (item : A) (prefix : list A) : list A :=
  match prefix with
  | [] => [item]
  | earlier :: prefix' =>
      if moves_before item earlier
      then earlier :: insert_item item prefix'
      else item :: prefix
  end.

Fixpoint insertion_loop (prefix items : list A) : list A :=
  match items with
  | [] => prefix
  | item :: items' => insertion_loop (insert_item item prefix) items'
  end.

Definition array_sort (items : list A) : list A :=
  rev (insertion_loop [] items).
End ArraySort.

(** ** The sort comparator of [renderOpportunities] *)

Definition priority : gmap string Z :=
  {[ "critical" := 4; "high" := 3; "medium" := 2; "low" := 1 ]}.

(** [priority[p] || 0]; a name inherited from [Object.prototype] yields a
    function, which is truthy and converts to [NaN]. *)
Definition priority_rank (p : option string) : option Z :=
  match get_property priority (property_key p) with
  | Own n => Some n
  | Inherited => None
  | Missing => Some 0
  end.

Section Comparator.
Variable now : Z. (* Date.now() *)

Definition comparator (currentSort : string) (a b : opportunity) : option Q :=
  if decide (currentSort = "ai_match_score") then
    Some (num_or_0 (ai_match_score b) - num_or_0 (ai_match_score a))%Q
  else if decide (currentSort = "created_at") then
    Some (inject_Z (default now (created_at b) - default now (created_at a)))
  else if decide (currentSort = "deadline") then
    match deadline a, deadline b with
    | None, _ => Some 1%Q
    | Some _, None => Some (-1)%Q
    | Some da, Some db => Some (inject_Z (da - db))
    end
  else if decide (currentSort = "priority_level") then
    match priority_rank (priority_level b), priority_rank (priority_level a) with
    | Some rb, Some ra => Some (inject_Z (rb - ra))
    | _, _ => None
    end
  else Some 0%Q.
End Comparator.

(** ** Kanban grouping *)

Definition statusGroups0 : gmap string (list opportunity) :=
  {[ "prospect" := []; "applied" := []; "interview_stage" := [];
     "under_consideration" := []; "offer_received" := []; "closed" := [] ]}.

(** [groups[key].push(opp)] on an own array property. *)
Definition push (key : string) (opp : opportunity)
    (groups : gmap string (list opportunity)) : gmap string (list opportunity) :=
  alter (λ column, column ++ [opp]) key groups.

(** The body of the [forEach] callback. *)
Definition place (groups : gmap string (list opportunity)) (opp : opportunity)
    : completion (gmap string (list opportunity)) :=
  if decide (status opp = Some "accepted" ∨ status opp = Some "rejected") then
    Normal (push "closed" opp groups)
  else
    match get_property groups (property_key (status opp)) with
    | Own _ => Normal (push (property_key (status opp)) opp groups)
    | Inherited => Throw (TypeError "statusGroups[opp.status].push is not a function")
    | Missing => Normal (push "prospect" opp groups)
    end.

Fixpoint groupByStatus (groups : gmap string (list opportunity))
    (opps : list opportunity) : completion (gmap string (list opportunity)) :=
  match opps with
  | [] => Normal groups
  | opp :: opps' =>
      match place groups opp with
      | Normal groups' => groupByStatus groups' opps'
      | Throw err => Throw err
      end
  end.

(** ** The opportunity form *)

Module Form.
Record t := Make {
  type : string;
  title : string;
  company : string;
  location : string;
  compensation_range : string;
  status : string;
  priority_level : string;
  application_date : string;
  deadline : string;
  source : string;
  requirements : list string;
  notes : string;
  next_step : string;
  ai_match_score : option Q (* absent until the opportunity is scored *)
}.

Definition set_ai_match_score (score : option Q) (formData : t) : t :=
  {| type := type formData; title := title formData; company := company formData;
     location := location formData;
     compensation_range := compensation_range formData;
     status := status formData; priority_level := priority_level formData;
     application_date := application_date formData;
     deadline := deadline formData; source := source formData;
     requirements := requirements formData; notes := notes formData;
     next_step := next_step formData; ai_match_score := score |}.
End Form.

(** [s.split(',')] *)
Fixpoint split_commas (s : string) : list string :=
  match s with
  | EmptyString => [EmptyString]
  | String c s' =>
      if decide (c = ","%char) then EmptyString :: split_commas s'
      else match split_commas s' with
           | piece :: pieces => String c piece :: pieces
           | [] => [String c EmptyString]
           end
  end.

(** [s.trim()], on the white space of ASCII. *)
Fixpoint trim_start (s : string) : string :=
  match s with
  | String c s' => if Ascii.is_space c then trim_start s' else s
  | EmptyString => EmptyString
  end.

Definition trim (s : string) : string :=
  String.rev (trim_start (String.rev (trim_start s))).

(** [text.split(',').map(req => req.trim()).filter(req => req)] *)
Definition parse_requirements (text : string) : list string :=
  filter (λ req, req ≠ EmptyString) (trim <$> split_commas text).

(** ** Requests, page effects and the controller's fields *)

Inductive endpoint :=
| ExecutiveOpportunities              (* /api/executive/opportunities *)
| SpeakingOpportunities               (* /api/speaking/opportunities *)
| ExecutiveOpportunity (n : Z)        (* /api/executive/opportunities/${id} *)
| ExecutiveOpportunityStatus (n : Z)  (* /api/executive/opportunities/${id}/status *)
| SpeakingOpportunity (n : Z)         (* /api/speaking/opportunities/${id} *)
| ScoreOpportunity.                   (* /api/ai-matching/score-opportunity *)

Inductive body :=
| StatusUpdate (actualStatus : string)  (* { status: actualStatus } *)
| FormData (formData : Form.t)
| ScoreRequest (kind : string) (reqs : list string).

Inductive request :=
| GET (url : endpoint)
| PUT (url : endpoint) (data : body)
| POST (url : endpoint) (data : body).

Inductive event :=
| Request (r : request)
| Notification (message kind : string)
| Console (level message : string)
| SummaryCards (total activeInterviews pendingOffers : nat) (successRate : Z)
| Counts (counts : gmap string nat)
| Cards (columns : gmap string (list opportunity))
| DragAndDrop
| ModalHidden
| FormCleared.

(** The server, as seen from the page: what each request is answered with,
    given everything that happened before it.  [None] and [false] are a
    rejected promise. *)
Record network := Network {
  fetch : list event → endpoint → option (list opportunity);
  write : list event → request → bool;
  score : list event → request → option (option Q)
}.

Record manager := Manager {
  opportunities : list opportunity;
  speakingOpportunities : list opportunity;
  currentFilter : string;
  currentSort : string;
  editingOpportunity : option opportunity
}.

Definition set_opportunities (l : list opportunity) (st : manager) : manager :=
  {| opportunities := l; speakingOpportunities := speakingOpportunities st;
     currentFilter := currentFilter st; currentSort := currentSort st;
     editingOpportunity := editingOpportunity st |}.

Definition set_speakingOpportunities (l : list opportunity) (st : manager) : manager :=
  {| opportunities := opportunities st; speakingOpportunities := l;
     currentFilter := currentFilter st; currentSort := currentSort st;
     editingOpportunity := editingOpportunity st |}.

Definition set_editingOpportunity (o : option opportunity) (st : manager) : manager :=
  {| opportunities := opportunities st;
     speakingOpportunities := speakingOpportunities st;
     currentFilter := currentFilter st; currentSort := currentSort st;
     editingOpportunity := o |}.

(** ** The monad of controller methods

    A method runs on the controller's fields and the trace of effects so
    far, and completes normally or throws; what it did before throwing
    stays done. *)

Definition world : Type := manager * list event.
Definition M (A : Type) : Type := world → completion A * world.

Global Instance M_ret : MRet M := λ A a w, (Normal a, w).
Global Instance M_bind : MBind M := λ A B k m w,
  match m w with
  | (Normal a, w') => k a w'
  | (Throw err, w') => (Throw err, w')
  end.

Definition this : M manager := λ w, (Normal w.1, w).
Definition history : M (list event) := λ w, (Normal w.2, w).
Definition assign (f : manager → manager) : M unit :=
  λ w, (Normal (), (f w.1, w.2)).
Definition emit (ev : event) : M unit :=
  λ w, (Normal (), (w.1, w.2 ++ [ev])).
Definition throw {A} (err : exn) : M A := λ w, (Throw err, w).
Definition try_catch {A} (block : M A) (handler : exn → M A) : M A := λ w,
  match block w with
  | (Normal a, w') => (Normal a, w')
  | (Throw err, w') => handler err w'
  end.

Definition console (level message : string) : M unit := emit (Console level message).
Definition showNotification (message kind : string) : M unit :=
  emit (Notification message kind).

(** ** The controller *)

(** The speaking-to-executive projection of [loadPipelineData]:
    [{...opp, type: 'speaking', ai_match_score: opp.ai_match_score || 0,
      compensation_range: opp.speaking_fee, title: opp.title,
      company: opp.organizer}]. *)
Definition speakingAsExec (opp : opportunity) : opportunity :=
  {| id := id opp;
     type := Some "speaking";
     title := title opp;
     company := organizer opp;
     location := location opp;
     compensation_range := speaking_fee opp;
     status := status opp;
     priority_level := priority_level opp;
     ai_match_score := Some (num_or_0 (ai_match_score opp));
     deadline := deadline opp;
     application_date := application_date opp;
     created_at := created_at opp;
     requirements := requirements opp;
     notes := notes opp;
     next_step := next_step opp;
     source := source opp;
     organizer := organizer opp;
     speaking_fee := speaking_fee opp |}.

(** [[...opportunities, ...speakingAsExec]] *)
Definition mergeOpportunities (generic speaking : list opportunity)
    : list opportunity :=
  generic ++ (speakingAsExec <$> speaking).

(** The summary figures of [updateSummaryCards]. *)
Definition successRate (opps : list opportunity) : Z :=
  let total := length opps in
  let accepted := length (filter (λ opp, status opp = Some "accepted") opps) in
  if decide (0 < total)%nat
  then Math_round ((inject_Z (Z.of_nat accepted) / inject_Z (Z.of_nat total)) * 100)%Q
  else 0.

(** The first lines of [renderOpportunities]: with the filter ["all"] the
    view is the stored array itself, otherwise [filter] makes a new one. *)
Definition filteredOpportunities (st : manager) : list opportunity :=
  if decide (currentFilter st ≠ "all")
  then filter (λ opp, type opp = Some (currentFilter st)) (opportunities st)
  else opportunities st.

(** [opp.id == id && (opp.type || 'executive') === type] *)
Definition matches (id0 : Z) (type0 : string) (opp : opportunity) : Prop :=
  id opp = id0 ∧ str_or (type opp) "executive" = type0.

Global Instance matches_dec id0 type0 opp : Decision (matches id0 type0 opp).
Proof. unfold matches. apply _. Defined.

Section Manager.
Variable e : engine.   (* how the engine's sort calls the comparator *)
Variable now : Z.      (* Date.now() *)
Variable net : network.

Definition axios_get (url : endpoint) : M (list opportunity) :=
  log ← history;
  emit (Request (GET url));;
  match fetch net log url with
  | Some data => mret data
  | None => throw RequestFailed
  end.

Definition axios_put (url : endpoint) (data : body) : M unit :=
  log ← history;
  emit (Request (PUT url data));;
  if write net log (PUT url data) then mret () else throw RequestFailed.

Definition axios_post (url : endpoint) (data : body) : M unit :=
  log ← history;
  emit (Request (POST url data));;
  if write net log (POST url data) then mret () else throw RequestFailed.

(** The scoring request; the answer carries [data.ai_match_score]. *)
Definition axios_post_score (data : body) : M (option Q) :=
  log ← history;
  emit (Request (POST ScoreOpportunity data));;
  match score net log (POST ScoreOpportunity data) with
  | Some answer => mret answer
  | None => throw RequestFailed
  end.

Definition updateSummaryCards : M unit :=
  st ← this;
  let total := length (opportunities st) in
  let activeInterviews :=
    length (filter (λ opp, status opp = Some "interview_stage") (opportunities st)) in
  let pendingOffers :=
    length (filter (λ opp, status opp = Some "offer_received") (opportunities st)) in
  emit (SummaryCards total activeInterviews pendingOffers
          (successRate (opportunities st))).

(** The array handed to the grouping loop. *)
Definition sortedOpportunities (st : manager) : list opportunity :=
  array_sort e (comparator now (currentSort st)) (filteredOpportunities st).

Definition renderOpportunities : M unit :=
  st ← this;
  let sorted := sortedOpportunities st in
  (* [sort] works in place: on the stored array when the view is it *)
  (if decide (currentFilter st ≠ "all") then mret ()
   else assign (set_opportunities sorted));;
  match groupByStatus statusGroups0 sorted with
  | Normal statusGroups =>
      emit (Counts (length <$> statusGroups));;
      emit (Cards statusGroups);;
      emit DragAndDrop
  | Throw err => throw err
  end.

Definition loadPipelineData : M unit :=
  try_catch
    (execData ← axios_get ExecutiveOpportunities;
     assign (set_opportunities execData);;
     speakingData ← axios_get SpeakingOpportunities;
     assign (set_speakingOpportunities speakingData);;
     st ← this;
     assign (set_opportunities
               (mergeOpportunities (opportunities st) (speakingOpportunities st)));;
     updateSummaryCards;;
     renderOpportunities)
    (λ _,
     console "error" "Failed to load pipeline data:";;
     showNotification "Failed to load pipeline data" "error").

Definition updateOpportunityStatus (id0 : Z) (type0 newStatus : string) : M unit :=
  try_catch
    ((* Map closed status to specific statuses *)
     let actualStatus :=
       if decide (newStatus = "closed") then "rejected" else newStatus in
     let endpoint :=
       if decide (type0 = "speaking") then SpeakingOpportunity id0
       else ExecutiveOpportunityStatus id0 in
     axios_put endpoint (StatusUpdate actualStatus);;
     (* Update local data *)
     st ← this;
     match list_find (matches id0 type0) (opportunities st) with
     | Some (oppIndex, _) =>
         assign (set_opportunities
                   (alter (set_status actualStatus) oppIndex (opportunities st)))
     | None => mret ()
     end;;
     renderOpportunities;;
     showNotification "Status updated successfully" "success")
    (λ _,
     console "error" "Failed to update status:";;
     showNotification "Failed to update status" "error";;
     loadPipelineData).

Definition closeOpportunityModal : M unit :=
  emit ModalHidden;;
  assign (set_editingOpportunity None);;
  emit FormCleared.

(** The object built from the form; [value] reads
    [document.getElementById(name).value]. *)
Definition formData_of (value : string → string) : Form.t :=
  {| Form.type := value "opportunityType";
     Form.title := value "title";
     Form.company := value "company";
     Form.location := value "location";
     Form.compensation_range := value "compensationRange";
     Form.status := value "status";
     Form.priority_level := value "priorityLevel";
     Form.application_date := value "applicationDate";
     Form.deadline := value "deadline";
     Form.source := value "source";
     Form.requirements := parse_requirements (value "requirements");
     Form.notes := value "notes";
     Form.next_step := value "nextStep";
     Form.ai_match_score := None |}.

Definition saveOpportunity (value : string → string) : M unit :=
  try_catch
    (let formData := formData_of value in
     st ← this;
     match editingOpportunity st with
     | Some editing =>
         (* Update existing opportunity *)
         let endpoint :=
           if decide (type editing = Some "speaking")
           then SpeakingOpportunity (id editing)
           else ExecutiveOpportunity (id editing) in
         axios_put endpoint (FormData formData)
     | None =>
         (* Create new opportunity *)
         let endpoint :=
           if decide (Form.type formData = "speaking")
           then SpeakingOpportunities else ExecutiveOpportunities in
         (* Score the opportunity with AI *)
         scored ← try_catch
           (answer ← axios_post_score
                       (ScoreRequest (Form.type formData) (Form.requirements formData));
            mret (Form.set_ai_match_score answer formData))
           (λ _,
            console "warn" "AI scoring failed, using default score";;
            mret (Form.set_ai_match_score (Some 50%Q) formData));
         axios_post endpoint (FormData scored)
     end;;
     closeOpportunityModal;;
     st' ← this;
     showNotification
       (match editingOpportunity st' with
        | Some _ => "Opportunity updated successfully"
        | None => "Opportunity created successfully"
        end)
       "success";;
     loadPipelineData)
    (λ _,
     console "error" "Failed to save opportunity:";;
     showNotification "Failed to save opportunity" "error").
End Manager.

(** * Vocabulary of the properties *)

Definition columns : list string :=
  [ "prospect"; "applied"; "interview_stage"; "under_consideration";
    "offer_received"; "closed" ].

(** The column the [forEach] callback pushes a record to, when it pushes. *)
Definition column_of (opp : opportunity) : string :=
  if decide (status opp = Some "accepted" ∨ status opp = Some "rejected") then "closed"
  else if decide (property_key (status opp) ∈ columns) then property_key (status opp)
  else "prospect".

(** The statuses on which the callback does not throw. *)
Definition groupable (opp : opportunity) : Prop :=
  status opp = Some "accepted" ∨ status opp = Some "rejected" ∨
  property_key (status opp) ∉ object_prototype_keys.

Global Instance groupable_dec opp : Decision (groupable opp).
Proof. unfold groupable. apply _. Defined.

(** [groups] holds exactly the records of [seen], each in its column. *)
Definition tracks (groups : gmap string (list opportunity))
    (seen : list opportunity) : Prop :=
  ∀ key, groups !! key =
    if decide (key ∈ columns) then Some (filter (λ opp, column_of opp = key) seen)
    else None.

(** How many records of a list [column_of] sends to a column. *)
Definition column_size (key : string) (opps : list opportunity) : nat :=
  length (filter (λ opp, column_of opp = key) opps).

Global Instance Qeq_decision (x y : Q) : Decision (x == y)%Q := Qeq_dec x y.

(** The sort key of a record under "ai_match_score": its score, or 0. *)
Definition match_score (opp : opportunity) : Q := num_or_0 (ai_match_score opp).

(** [x] is due no later than [y]; a record with no deadline is due last. *)
Definition deadline_le (x y : opportunity) : Prop :=
  match deadline x, deadline y with
  | _, None => True
  | None, Some _ => False
  | Some dx, Some dy => dx ≤ dy
  end.

(** The number of accepted records. *)
Definition accepted_count (opps : list opportunity) : nat :=
  length (filter (λ opp, status opp = Some "accepted") opps).

(** The claimed overall conversion, in the words of the specification:
    accepted records over records that have left the prospect stage, 0 when
    none has. *)
Definition claimed_overall_conversion (opps : list opportunity) : Q :=
  let departed := length (filter (λ opp, status opp ≠ Some "prospect") opps) in
  if decide (departed = 0%nat) then 0%Q
  else (inject_Z (Z.of_nat (accepted_count opps)) / inject_Z (Z.of_nat departed))%Q.

(** The endpoint a status update is written to. *)
Definition status_endpoint (id0 : Z) (type0 : string) : endpoint :=
  if decide (type0 = "speaking") then SpeakingOpportunity id0
  else ExecutiveOpportunityStatus id0.

(** The stored list after the lines under "Update local data". *)
Definition localUpdate (id0 : Z) (type0 actualStatus : string)
    (opps : list opportunity) : list opportunity :=
  match list_find (matches id0 type0) opps with
  | Some (oppIndex, _) => alter (set_status actualStatus) oppIndex opps
  | None => opps
  end.

(** The creation endpoint of a form. *)
Definition creation_endpoint (formData : Form.t) : endpoint :=
  if decide (Form.type formData = "speaking")
  then SpeakingOpportunities else ExecutiveOpportunities.

(** The scoring request made for a form. *)
Definition scoring_request (formData : Form.t) : request :=
  POST ScoreOpportunity
    (ScoreRequest (Form.type formData) (Form.requirements formData)).

(** [emits Φ m]: running [m] only appends to the trace, and every event it
    appends satisfies [Φ]. *)
Definition emits {A} (Φ : event → Prop) (m : M A) : Prop :=
  ∀ w, ∃ evs, (m w).2.2 = w.2 ++ evs ∧ Forall Φ evs.

(** [starts_with Φ ev m]: the first thing [m] does is [ev], and whatever
    it does next satisfies [Φ]. *)
Definition starts_with {A} (Φ : event → Prop) (ev : event) (m : M A) : Prop :=
  ∀ w, ∃ rest, (m w).2.2 = w.2 ++ ev :: rest ∧ Forall Φ rest.

(** The requests a method issues besides plain reads. *)
Definition is_write (ev : event) : Prop :=
  match ev with
  | Request (PUT _ _) | Request (POST _ _) => True
  | _ => False
  end.

(** A request to the scoring endpoint. *)
Definition is_scoring (ev : event) : Prop :=
  match ev with
  | Request (POST ScoreOpportunity _) => True
  | _ => False
  end.

(** The continuations of [updateOpportunityStatus] and [saveOpportunity]
    named in the statements below. *)
Section Continuations.
Variable e : engine.
Variable now : Z.
Variable net : network.

(** What is left of [updateOpportunityStatus] once the write has
    succeeded and the local data is updated. *)
Definition rendered_and_confirmed : M unit :=
  try_catch
    (renderOpportunities e now;;
     showNotification "Status updated successfully" "success")
    (λ _,
     console "error" "Failed to update status:";;
     showNotification "Failed to update status" "error";;
     loadPipelineData e now net).

(** What [saveOpportunity] does after its write, and when it fails. *)
Definition after_save : M unit :=
  closeOpportunityModal;;
  st' ← this;
  showNotification
    (match editingOpportunity st' with
     | Some _ => "Opportunity updated successfully"
     | None => "Opportunity created successfully"
     end)
    "success";;
  loadPipelineData e now net.

Definition save_failed : exn → M unit := λ _,
  console "error" "Failed to save opportunity:";;
  showNotification "Failed to save opportunity" "error".
End Continuations.

(** * Sample data *)

(** An opportunity with the given id, type, status, score and deadline
    and nothing else filled in. *)
Definition sample (n : Z) (kind state : option string) (points : option Q)
    (due : option Z) : opportunity :=
  {| id := n; type := kind; title := None; company := None; location := None;
     compensation_range := None; status := state; priority_level := None;
     ai_match_score := points; deadline := due; application_date := None;
     created_at := None; requirements := []; notes := None; next_step := None;
     source := None; organizer := None; speaking_fee := None |}.

(** A speaking engagement as the speaking endpoint returns it. *)
Definition acme_talk : opportunity :=
  {| id := 7; type := None; title := Some "Keynote"; company := None;
     location := None; compensation_range := None; status := Some "prospect";
     priority_level := None; ai_match_score := None; deadline := None;
     application_date := None; created_at := None; requirements := [];
     notes := None; next_step := None; source := None;
     organizer := Some "Acme"; speaking_fee := Some "$5k" |}.

(** A server that serves fixed collections and accepts every write. *)
Definition steady_server (generic speaking : list opportunity) : network :=
  {| fetch := λ _ url,
       match url with
       | ExecutiveOpportunities => Some generic
       | SpeakingOpportunities => Some speaking
       | _ => None
       end;
     write := λ _ _, true;
     score := λ _ _, Some (Some 80%Q) |}.

(** A server that is down. *)
Definition dead_server : network :=
  {| fetch := λ _ _, None; write := λ _ _, false; score := λ _ _, None |}.

(** A server whose scoring service is down. *)
Definition unscored_server : network :=
  {| fetch := λ _ _, Some []; write := λ _ _, true; score := λ _ _, None |}.

(** The form filled in for a new advisory role. *)
Definition advisor_form (name : string) : string :=
  if decide (name = "opportunityType") then "advisor"
  else if decide (name = "title") then "Board advisor"
  else if decide (name = "requirements") then " governance, AI ,, risk "
  else if decide (name = "status") then "prospect"
  else if decide (name = "priorityLevel") then "medium"
  else "".

(** Ten records: four prospects, three applied, two in interviews, one
    accepted. *)
Definition ten_records : list opportunity :=
  [ sample 1 None (Some "prospect") None None;
    sample 2 None (Some "prospect") None None;
    sample 3 None (Some "prospect") None None;
    sample 4 None (Some "prospect") None None;
    sample 5 None (Some "applied") None None;
    sample 6 None (Some "applied") None None;
    sample 7 None (Some "applied") None None;
    sample 8 None (Some "interview_stage") None None;
    sample 9 None (Some "interview_stage") None None;
    sample 10 None (Some "accepted") None None ].

(** * Vocabulary of the further properties *)

(** The sort key of a record under "created_at": its creation time, or
    the time of the sort. *)
Definition created_key (now : Z) (opp : opportunity) : Z :=
  default now (created_at opp).

(** The priority levels the rank table reads as numbers: those that do not
    name a property the table inherits. *)
Definition ranked (opp : opportunity) : Prop :=
  property_key (priority_level opp) ∉ object_prototype_keys.

Global Instance ranked_dec opp : Decision (ranked opp).
Proof. unfold ranked. apply _. Defined.

(** The sort key of a record under "priority_level": its rank, or 0. *)
Definition rank_of (opp : opportunity) : Z :=
  default 0 (priority_rank (priority_level opp)).

(** The sort keys the comparator knows. *)
Definition sort_keys : list string :=
  [ "ai_match_score"; "created_at"; "deadline"; "priority_level" ].

(** [keeps f m]: running [m] leaves the value of [f] on the controller's
    fields as it was. *)
Definition keeps {A B} (f : manager → B) (m : M A) : Prop :=
  ∀ w, f (m w).2.1 = f w.1.

(** What a load can add to the trace: reads, the summary cards, the board,
    and its own failure report. *)
Definition load_event (ev : event) : Prop :=
  match ev with
  | Request (GET _) | SummaryCards _ _ _ _ | Counts _ | Cards _ | DragAndDrop => True
  | Console level message =>
      level = "error" ∧ message = "Failed to load pipeline data:"
  | Notification message kind =>
      message = "Failed to load pipeline data" ∧ kind = "error"
  | _ => False
  end.

(** What [saveOpportunity] adds to the trace before and with its write:
    requests that are no reads, and console lines. *)
Definition save_event (ev : event) : Prop :=
  match ev with
  | Request (PUT _ _) | Request (POST _ _) | Console _ _ => True
  | _ => False
  end.

(** What can be observed of a run of [saveOpportunity] from fields [st]
    that added [evs] to the trace: it never announces an update; either it
    reports a failure, and then the fields are as they were, the modal was
    not closed and nothing was read again; or it closed the modal, forgot
    the record being edited, announced a creation and started a load. *)
Definition save_outcome (st : manager) (run : completion unit * world)
    (evs : list event) : Prop :=
  (Notification "Opportunity updated successfully" "success" ∉ evs) ∧
  (Notification "Failed to save opportunity" "error" ∈ evs →
   run.2.1 = st ∧ (ModalHidden ∉ evs) ∧ (FormCleared ∉ evs) ∧
   ∀ url, Request (GET url) ∉ evs) ∧
  (Notification "Failed to save opportunity" "error" ∉ evs →
   editingOpportunity run.2.1 = None ∧
   ModalHidden ∈ evs ∧ FormCleared ∈ evs ∧
   Notification "Opportunity created successfully" "success" ∈ evs ∧
   Request (GET ExecutiveOpportunities) ∈ evs).

(** The [data-type] attribute [createOpportunityCard] gives a card:
    [opportunity.type || 'executive']; its [data-id] is [opportunity.id]. *)
Definition data_type (opp : opportunity) : string := str_or (type opp) "executive".

(** ** The requirements field and the age of a card *)

(** [items.join(separator)] on an array of strings. *)
Definition join (separator : string) (items : list string) : string :=
  String.concat separator items.


(** [getTimeAgo], on the time values of [new Date()] and of the date given:
    integral numbers of milliseconds, on which [Math.floor] of each quotient
    is the quotient of integers.  A string that is no date is not covered. *)
Definition getTimeAgo (now date : Z) : string :=
  let diffInMs := now - date in
  let diffInMins := diffInMs / (1000 * 60) in
  let diffInHours := diffInMs / (1000 * 60 * 60) in
  let diffInDays := diffInMs / (1000 * 60 * 60 * 24) in
  if decide (diffInMins < 60) then pretty diffInMins +:+ " min ago"
  else if decide (diffInHours < 24) then pretty diffInHours +:+ "h ago"
  else pretty diffInDays +:+ "d ago".

(** A string with no comma in it. *)
Definition comma_free (s : string) : Prop :=
  Forall (λ c, c ≠ ","%char) (list_ascii_of_string s).

(** A requirement as the form keeps it: not empty, with no white space
    around it and no comma in it. *)
Definition entry (req : string) : Prop :=
  req ≠ EmptyString ∧ trim req = req ∧ comma_free req.

(** A record with three requirements. *)
Definition board_seat : opportunity :=
  {| id := 4; type := Some "board_director"; title := Some "Board seat";
     company := None; location := None; compensation_range := None;
     status := Some "prospect"; priority_level := Some "high";
     ai_match_score := None; deadline := None; application_date := None;
     created_at := None; requirements := ["governance"; "AI strategy"; "risk"];
     notes := None; next_step := None; source := None; organizer := None;
     speaking_fee := None |}.

(** * Properties *)

(** ** The sort *)

Lemma StronglySorted_rev {A} (R : relation A) (l : list A) :
  StronglySorted R l → StronglySorted (flip R) (rev l).
Proof.
  induction 1 as [|x l Hl IH Hx]; simpl; [constructor|].
  apply StronglySorted_app_2; [|done|repeat constructor].
  intros y x' Hy ->%list_elem_of_singleton. unfold flip.
  rewrite Forall_forall in Hx. apply Hx.
  apply list_elem_of_In, in_rev, list_elem_of_In, Hy.
Qed.

Section ArraySortFacts.
Context {A : Type}.
Variable e : engine.
Variable comparefn : A → A → option Q.

Local Abbreviation moves := (moves_before e comparefn).
Local Abbreviation insert := (insert_item e comparefn).
Local Abbreviation loop := (insertion_loop e comparefn).
Local Abbreviation sort := (array_sort e comparefn).

Lemma insert_item_perm item prefix : insert item prefix ≡ₚ item :: prefix.
Proof.
  induction prefix as [|earlier prefix IH]; simpl; [done|].
  destruct (moves item earlier); [|done].
  rewrite IH. apply Permutation_swap.
Qed.

Lemma insertion_loop_perm prefix items : loop prefix items ≡ₚ items ++ prefix.
Proof.
  revert prefix. induction items as [|item items IH]; intros prefix; simpl; [done|].
  rewrite IH, insert_item_perm. by rewrite Permutation_middle.
Qed.

(** Sorting rearranges: nothing is lost, nothing is added. *)
Lemma array_sort_perm items : sort items ≡ₚ items.
Proof.
  unfold array_sort. rewrite <- Permutation_rev, insertion_loop_perm.
  by rewrite app_nil_r.
Qed.


(** *** Order.  [follows y x] reads: [y] may stand after [x]. *)
Section Order.
Variable follows : relation A.
Hypothesis follows_trans : ∀ x y z, follows y x → follows z y → follows z x.
Hypothesis stays : ∀ item earlier, moves item earlier = false → follows item earlier.
Hypothesis passes : ∀ item earlier, moves item earlier = true → follows earlier item.

Lemma insert_item_sorted item prefix :
  StronglySorted follows prefix → StronglySorted follows (insert item prefix).
Proof.
  induction 1 as [|earlier prefix Hp IH He]; simpl.
  { repeat constructor. }
  destruct (moves item earlier) eqn:Hm.
  - constructor; [exact IH|].
    rewrite insert_item_perm. constructor; [by apply passes|done].
  - constructor; [by constructor|].
    constructor; [by apply stays|].
    eapply Forall_impl; [exact He|].
    intros x Hx. eapply follows_trans; [exact Hx|by apply stays].
Qed.

Lemma insertion_loop_sorted prefix items :
  StronglySorted follows prefix → StronglySorted follows (loop prefix items).
Proof.
  revert prefix. induction items as [|item items IH]; intros prefix Hp; simpl; [done|].
  by apply IH, insert_item_sorted.
Qed.

Lemma array_sort_sorted items : StronglySorted (flip follows) (sort items).
Proof. apply StronglySorted_rev, insertion_loop_sorted. constructor. Qed.
End Order.

(** *** Stability.  A class of elements none of which ever passes another
    keeps its order. *)
Section Stability.
Variable P : A → Prop.
Context `{!∀ x, Decision (P x)}.
Hypothesis never_passes : ∀ item earlier,
  moves item earlier = true → P item → P earlier → False.

Lemma insert_item_stable item prefix :
  filter P (rev (insert item prefix)) = filter P (rev prefix) ++ filter P [item].
Proof.
  induction prefix as [|earlier prefix IH]; simpl; [done|].
  destruct (moves item earlier) eqn:Hm; simpl.
  - rewrite !filter_app, IH, <- !app_assoc. f_equal.
    rewrite !filter_cons, !filter_nil.
    destruct (decide (P item)), (decide (P earlier)); try done.
    exfalso; eauto.
  - by rewrite !filter_app.
Qed.

Lemma insertion_loop_stable prefix items :
  filter P (rev (loop prefix items)) = filter P (rev prefix) ++ filter P items.
Proof.
  revert prefix. induction items as [|item items IH]; intros prefix; simpl.
  { by rewrite filter_nil, app_nil_r. }
  rewrite IH, insert_item_stable, <- app_assoc. f_equal.
  change (item :: items) with ([item] ++ items). by rewrite filter_app.
Qed.

Lemma array_sort_stable items : filter P (sort items) = filter P items.
Proof. unfold array_sort. by rewrite insertion_loop_stable. Qed.
End Stability.
End ArraySortFacts.

(** The two ways of asking give the same array when the comparator answers
    consistently. *)
Lemma array_sort_engines_agree {A} (comparefn : A → A → option Q) (items : list A) :
  (∀ x y, (SortCompare comparefn x y < 0)%Q ↔ (0 < SortCompare comparefn y x)%Q) →
  array_sort LaterFirst comparefn items = array_sort EarlierFirst comparefn items.
Proof.
  intros Hconsistent.
  assert (∀ item earlier,
            moves_before LaterFirst comparefn item earlier
            = moves_before EarlierFirst comparefn item earlier) as Hmoves.
  { intros item earlier. unfold moves_before.
    specialize (Hconsistent item earlier).
    destruct (Qcompare_spec (SortCompare comparefn item earlier) 0),
             (Qcompare_spec (SortCompare comparefn earlier item) 0);
      try done; exfalso; lra. }
  assert (∀ item prefix,
            insert_item LaterFirst comparefn item prefix
            = insert_item EarlierFirst comparefn item prefix) as Hinsert.
  { intros item prefix. induction prefix as [|earlier prefix IH]; [done|].
    cbn [insert_item]. by rewrite Hmoves, IH. }
  unfold array_sort. f_equal. generalize (@nil A) as prefix.
  induction items as [|item items IH]; intros prefix; [done|].
  cbn [insertion_loop]. by rewrite Hinsert, IH.
Qed.

(** ** Kanban grouping *)

Lemma statusGroups0_tracks : tracks statusGroups0 [].
Proof.
  intros key. unfold statusGroups0, columns.
  destruct (decide (key ∈ _)) as [Hin|Hout]; simpl.
  - repeat (apply elem_of_cons in Hin as [->|Hin]; [by vm_compute|]).
    by apply elem_of_nil in Hin.
  - repeat (rewrite lookup_insert_ne; [|intros <-; apply Hout; set_solver]).
    rewrite lookup_singleton_ne; [done|]. intros <-; apply Hout; set_solver.
Qed.

Lemma column_of_elem opp : column_of opp ∈ columns.
Proof.
  unfold column_of.
  destruct (decide (_ ∨ _)); [by apply (bool_decide_unpack _)|].
  destruct (decide (_ ∈ _)); [done|]. by apply (bool_decide_unpack _).
Qed.

Lemma push_tracks groups seen opp :
  tracks groups seen →
  tracks (push (column_of opp) opp groups) (seen ++ [opp]).
Proof.
  intros Ht key. unfold push. rewrite lookup_alter, Ht, filter_app.
  rewrite filter_cons, filter_nil.
  destruct (decide (column_of opp = key)) as [<-|Hne].
  - destruct (decide (column_of opp ∈ columns)) as [_|[]]; [done|].
    apply column_of_elem.
  - by rewrite Ht, app_nil_r.
Qed.

Lemma place_tracks groups seen opp :
  tracks groups seen → groupable opp →
  place groups opp = Normal (push (column_of opp) opp groups).
Proof.
  intros Ht Hg. unfold place, column_of, get_property.
  destruct (decide (_ ∨ _)) as [|Hopen]; [done|].
  rewrite Ht. destruct (decide (property_key (status opp) ∈ columns)); [done|].
  rewrite decide_False; [done|].
  destruct Hg as [?|[?|?]]; [tauto|tauto|done].
Qed.

Lemma groupByStatus_tracks groups seen opps :
  tracks groups seen → Forall groupable opps →
  ∃ groups', groupByStatus groups opps = Normal groups' ∧ tracks groups' (seen ++ opps).
Proof.
  intros Ht Hg. revert groups seen Ht.
  induction Hg as [|opp opps Hopp _ IH]; intros groups seen Ht; simpl.
  { exists groups. by rewrite app_nil_r. }
  rewrite (place_tracks _ seen) by done.
  destruct (IH _ (seen ++ [opp]) (push_tracks _ _ opp Ht)) as (groups' & -> & Ht').
  exists groups'. split; [done|]. by rewrite <- app_assoc in Ht'.
Qed.

Lemma columns_not_inherited key : key ∈ columns → key ∉ object_prototype_keys.
Proof.
  unfold columns. intros Hcol.
  repeat (apply elem_of_cons in Hcol as [->|Hcol];
          [by apply (bool_decide_unpack _)|]).
  by apply elem_of_nil in Hcol.
Qed.

(** A record whose status names a property of [Object.prototype] makes
    the loop throw. *)
Lemma place_throws groups seen opp :
  tracks groups seen → ¬ groupable opp →
  place groups opp = Throw (TypeError "statusGroups[opp.status].push is not a function").
Proof.
  intros Ht Hg. unfold place, get_property.
  destruct (decide (_ ∨ _)) as [Hc|Hopen].
  { exfalso. apply Hg. unfold groupable. tauto. }
  rewrite Ht.
  destruct (decide (property_key (status opp) ∈ object_prototype_keys)) as [Hin|Hout].
  - destruct (decide (property_key (status opp) ∈ columns)) as [Hcol|_]; [|done].
    by apply columns_not_inherited in Hcol.
  - exfalso. apply Hg. unfold groupable. tauto.
Qed.

Lemma column_size_cons key opp opps :
  column_size key (opp :: opps) =
  if decide (column_of opp = key) then S (column_size key opps)
  else column_size key opps.
Proof. unfold column_size. rewrite filter_cons. by case_decide. Qed.

(** Every record is counted in the column [column_of] names, and in no
    other. *)
Lemma columns_cover (opps : list opportunity) :
  (column_size "prospect" opps + column_size "applied" opps +
   column_size "interview_stage" opps + column_size "under_consideration" opps +
   column_size "offer_received" opps + column_size "closed" opps)%nat
  = length opps.
Proof.
  induction opps as [|opp opps IH]; [done|].
  pose proof (column_of_elem opp) as Hin. unfold columns in Hin.
  rewrite !column_size_cons.
  repeat (apply elem_of_cons in Hin as [Heq|Hin]); [..|by apply elem_of_nil in Hin].
  all: rewrite Heq; repeat case_decide; try done; cbn [length]; lia.
Qed.

(** On records the callback accepts, the loop completes and the columns
    partition the view: each column holds, in view order, the records
    [column_of] sends there. *)
Lemma groupByStatus_partition (opps : list opportunity) :
  Forall groupable opps →
  ∃ statusGroups,
    groupByStatus statusGroups0 opps = Normal statusGroups ∧
    (∀ key, key ∈ columns →
       statusGroups !! key = Some (filter (λ opp, column_of opp = key) opps)) ∧
    (∀ key, key ∉ columns → statusGroups !! key = None) ∧
    (column_size "prospect" opps + column_size "applied" opps +
     column_size "interview_stage" opps + column_size "under_consideration" opps +
     column_size "offer_received" opps + column_size "closed" opps)%nat
    = length opps.
Proof.
  intros Hg.
  destruct (groupByStatus_tracks _ [] opps statusGroups0_tracks Hg)
    as (statusGroups & Hrun & Ht).
  exists statusGroups. split; [done|]. rewrite app_nil_l in Ht.
  split; [|split; [|apply columns_cover]].
  - intros key Hkey. by rewrite Ht, decide_True.
  - intros key Hkey. by rewrite Ht, decide_False.
Qed.

(** ** The comparator *)

Lemma Qcompare_inject_Z_0 (z : Z) : (inject_Z z ?= 0)%Q = (z ?= 0)%Z.
Proof. unfold Qcompare. simpl. by rewrite Z.mul_1_r. Qed.

(** *** By match score *)

Lemma score_moves_before e now item earlier :
  moves_before e (comparator now "ai_match_score") item earlier = true
  ↔ (match_score earlier < match_score item)%Q.
Proof.
  unfold moves_before, SortCompare, comparator. rewrite decide_True by done.
  simpl. fold (match_score earlier) (match_score item). destruct e.
  - destruct (Qcompare_spec (match_score earlier - match_score item) 0);
      split; intros; try done; lra.
  - destruct (Qcompare_spec (match_score item - match_score earlier) 0);
      split; intros; try done; lra.
Qed.

Lemma score_sorted e now opps :
  StronglySorted (λ a b, (match_score b <= match_score a)%Q)
    (array_sort e (comparator now "ai_match_score") opps).
Proof.
  apply (array_sort_sorted e _ (λ y x, (match_score y <= match_score x)%Q)).
  - intros x y z ??. lra.
  - intros item earlier Hm.
    destruct (Qlt_le_dec (match_score earlier) (match_score item)) as [Hlt|]; [|done].
    apply score_moves_before with (e := e) (now := now) in Hlt. congruence.
  - intros item earlier Hm%score_moves_before. lra.
Qed.

Lemma score_stable e now (q : Q) opps :
  filter (λ opp, (match_score opp == q)%Q)
    (array_sort e (comparator now "ai_match_score") opps)
  = filter (λ opp, (match_score opp == q)%Q) opps.
Proof.
  apply array_sort_stable.
  intros item earlier Hm%score_moves_before Hi He. lra.
Qed.

(** *** By deadline *)

Lemma deadline_moves_before e now item earlier :
  moves_before e (comparator now "deadline") item earlier =
  match e, deadline item, deadline earlier with
  | LaterFirst, None, _ => false
  | LaterFirst, Some _, None => true
  | EarlierFirst, _, None => true
  | EarlierFirst, None, Some _ => false
  | _, Some di, Some de => bool_decide (di < de)
  end.
Proof.
  unfold moves_before, SortCompare, comparator.
  rewrite decide_False, decide_False, decide_True by done.
  destruct e, (deadline item) as [di|], (deadline earlier) as [de|]; simpl; try done.
  - rewrite Qcompare_inject_Z_0.
    destruct (Z.compare_spec (di - de) 0); case_bool_decide; try done; lia.
  - rewrite Qcompare_inject_Z_0.
    destruct (Z.compare_spec (de - di) 0); case_bool_decide; try done; lia.
Qed.

(** Whatever the engine, records come out by deadline, those with none
    last. *)
Lemma deadline_sorted e now opps :
  StronglySorted deadline_le (array_sort e (comparator now "deadline") opps).
Proof.
  apply (array_sort_sorted e _ (λ y x, deadline_le x y)).
  - unfold deadline_le. intros x y z.
    destruct (deadline x), (deadline y), (deadline z); try done; lia.
  - intros item earlier. rewrite deadline_moves_before. unfold deadline_le.
    destruct e, (deadline item), (deadline earlier);
      try done; intros ?%bool_decide_eq_false; lia.
  - intros item earlier. rewrite deadline_moves_before. unfold deadline_le.
    destruct e, (deadline item), (deadline earlier);
      try done; intros ?%bool_decide_eq_true; lia.
Qed.

(** Records due the same day keep their order, whatever the engine. *)
Lemma deadline_stable_dated e now (d : Z) opps :
  filter (λ opp, deadline opp = Some d) (array_sort e (comparator now "deadline") opps)
  = filter (λ opp, deadline opp = Some d) opps.
Proof.
  apply array_sort_stable. intros item earlier.
  rewrite deadline_moves_before. intros Hm Hi He. rewrite Hi, He in Hm.
  destruct e; apply bool_decide_eq_true in Hm; lia.
Qed.

(** Records with no deadline keep their order on an engine that asks
    [comparefn(item, earlier)]. *)
Lemma deadline_stable_undated_LaterFirst now opps :
  filter (λ opp, deadline opp = None)
    (array_sort LaterFirst (comparator now "deadline") opps)
  = filter (λ opp, deadline opp = None) opps.
Proof.
  apply array_sort_stable. intros item earlier.
  rewrite deadline_moves_before. intros Hm Hi He. by rewrite Hi in Hm.
Qed.

(** ** Traces of effects *)

Lemma emits_silent {A} Φ (m : M A) :
  (∀ w, (m w).2.2 = w.2) → emits Φ m.
Proof. intros Hm w. exists []. by rewrite Hm, app_nil_r. Qed.

Lemma emits_mret {A} Φ (a : A) : emits Φ (mret a).
Proof. by apply emits_silent. Qed.

Lemma emits_this Φ : emits Φ this.
Proof. by apply emits_silent. Qed.

Lemma emits_history Φ : emits Φ history.
Proof. by apply emits_silent. Qed.

Lemma emits_assign Φ f : emits Φ (assign f).
Proof. by apply emits_silent. Qed.

Lemma emits_throw {A} Φ err : emits Φ (@throw A err).
Proof. by apply emits_silent. Qed.

Lemma emits_emit (Φ : event → Prop) ev : Φ ev → emits Φ (emit ev).
Proof. intros Hev w. exists [ev]. split; [done|]. by constructor. Qed.

Lemma emits_bind {A B} Φ (m : M A) (k : A → M B) :
  emits Φ m → (∀ a, emits Φ (k a)) → emits Φ (m ≫= k).
Proof.
  intros Hm Hk w. unfold mbind, M_bind.
  destruct (Hm w) as (evs & Hlog & Hevs).
  destruct (m w) as [[a|err] w']; simpl in Hlog.
  - destruct (Hk a w') as (evs' & Hlog' & Hevs').
    exists (evs ++ evs'). split; [|by apply Forall_app].
    by rewrite Hlog', Hlog, app_assoc.
  - by exists evs.
Qed.

Lemma emits_try_catch {A} Φ (block : M A) (handler : exn → M A) :
  emits Φ block → (∀ err, emits Φ (handler err)) → emits Φ (try_catch block handler).
Proof.
  intros Hm Hk w. unfold try_catch.
  destruct (Hm w) as (evs & Hlog & Hevs).
  destruct (block w) as [[a|err] w']; simpl in Hlog.
  - by exists evs.
  - destruct (Hk err w') as (evs' & Hlog' & Hevs').
    exists (evs ++ evs'). split; [|by apply Forall_app].
    by rewrite Hlog', Hlog, app_assoc.
Qed.

Lemma emits_impl {A} (Φ Ψ : event → Prop) (m : M A) :
  (∀ ev, Φ ev → Ψ ev) → emits Φ m → emits Ψ m.
Proof.
  intros Himpl Hm w. destruct (Hm w) as (evs & Hlog & Hevs).
  exists evs. split; [done|]. by eapply Forall_impl.
Qed.

Lemma starts_with_try_catch {A} Φ ev (block : M A) (handler : exn → M A) :
  starts_with Φ ev block → (∀ err, emits Φ (handler err)) →
  starts_with Φ ev (try_catch block handler).
Proof.
  intros Hm Hk w. unfold try_catch.
  destruct (Hm w) as (rest & Hlog & Hrest).
  destruct (block w) as [[a|err] w']; simpl in Hlog.
  - by exists rest.
  - destruct (Hk err w') as (evs' & Hlog' & Hevs').
    exists (rest ++ evs'). split; [|by apply Forall_app].
    by rewrite Hlog', Hlog, <- app_assoc.
Qed.

#[local] Ltac emits_step :=
  first
    [ apply emits_bind; [|intros ?]
    | apply emits_try_catch; [|intros ?]
    | apply emits_mret | apply emits_this | apply emits_history
    | apply emits_assign | apply emits_throw
    | apply emits_emit
    | match goal with |- emits _ (match ?x with _ => _ end) => destruct x end ].

Section Traces.
Variable e : engine.
Variable now : Z.
Variable net : network.

Lemma renderOpportunities_emits : emits (λ ev, ¬ is_write ev) (renderOpportunities e now).
Proof. unfold renderOpportunities. repeat emits_step; by intros []. Qed.

(** Loading reads, and writes nothing to the server. *)
Lemma loadPipelineData_emits : emits (λ ev, ¬ is_write ev) (loadPipelineData e now net).
Proof.
  unfold loadPipelineData, axios_get, updateSummaryCards, console, showNotification.
  repeat emits_step; by intros [].
Qed.

(** A request is the first thing [axios] does. *)
Lemma axios_get_starts {A} Φ url (k : list opportunity → M A) :
  (∀ data, emits Φ (k data)) →
  starts_with Φ (Request (GET url)) (axios_get net url ≫= k).
Proof.
  intros Hk [st log]. unfold axios_get, mbind, M_bind, history, emit. simpl.
  destruct (fetch net log url) as [data|]; simpl.
  - destruct (Hk data (st, log ++ [Request (GET url)])) as (evs & -> & Hevs).
    exists evs. simpl. by rewrite <- app_assoc.
  - by exists [].
Qed.

Lemma axios_put_starts {A} Φ url data (k : () → M A) :
  (∀ u, emits Φ (k u)) →
  starts_with Φ (Request (PUT url data)) (axios_put net url data ≫= k).
Proof.
  intros Hk [st log]. unfold axios_put, mbind, M_bind, history, emit. simpl.
  destruct (write net log _); simpl.
  - destruct (Hk () (st, log ++ [Request (PUT url data)])) as (evs & -> & Hevs).
    exists evs. simpl. by rewrite <- app_assoc.
  - by exists [].
Qed.

Lemma axios_post_starts {A} Φ url data (k : () → M A) :
  (∀ u, emits Φ (k u)) →
  starts_with Φ (Request (POST url data)) (axios_post net url data ≫= k).
Proof.
  intros Hk [st log]. unfold axios_post, mbind, M_bind, history, emit. simpl.
  destruct (write net log _); simpl.
  - destruct (Hk () (st, log ++ [Request (POST url data)])) as (evs & -> & Hevs).
    exists evs. simpl. by rewrite <- app_assoc.
  - by exists [].
Qed.

(** Loading starts by requesting the executive collection, and writes
    nothing to the server. *)
Lemma loadPipelineData_starts :
  starts_with (λ ev, ¬ is_write ev) (Request (GET ExecutiveOpportunities))
    (loadPipelineData e now net).
Proof.
  unfold loadPipelineData. apply starts_with_try_catch.
  - apply axios_get_starts. intros data.
    unfold axios_get, updateSummaryCards. repeat emits_step; by intros [].
  - intros err. unfold console, showNotification. repeat emits_step; by intros [].
Qed.
End Traces.

(** ** The merge layer *)



(** ** Filtering and sorting the view *)

Lemma filteredOpportunities_all st :
  currentFilter st = "all" → filteredOpportunities st = opportunities st.
Proof. intros Hall. unfold filteredOpportunities. by rewrite decide_False by tauto. Qed.

(** With a type filter the stored array is left as it is: [filter] has
    made a copy, and the copy is what gets sorted. *)
Lemma render_keeps_stored_opportunities e now st log :
  currentFilter st ≠ "all" →
  opportunities (renderOpportunities e now (st, log)).2.1 = opportunities st.
Proof.
  intros Hfilter. unfold renderOpportunities, mbind, M_bind, this. simpl.
  rewrite decide_True by done. simpl.
  by destruct (groupByStatus _ _).
Qed.



(** C8. Sorted by "ai_match_score", the view is in non-increasing order of
    score, a missing score counting as 0, and it is stable: the records of
    any one score stand in the order they had in the filtered list.  This
    holds whichever way the engine calls the comparator. *)
Theorem sort_by_ai_match_score e now st :
  currentSort st = "ai_match_score" →
  StronglySorted (λ a b, (match_score b <= match_score a)%Q)
    (sortedOpportunities e now st) ∧
  (∀ q : Q,
     filter (λ opp, (match_score opp == q)%Q) (sortedOpportunities e now st)
     = filter (λ opp, (match_score opp == q)%Q) (filteredOpportunities st)) ∧
  sortedOpportunities e now st ≡ₚ filteredOpportunities st.
Proof.
  intros Hsort. unfold sortedOpportunities. rewrite Hsort.
  split; [apply score_sorted|]. split; [|apply array_sort_perm].
  intros q. apply score_stable.
Qed.

Lemma sort_by_ai_match_score_witness :
  let st := Manager [sample 1 None None (Some 40%Q) None;
                     sample 2 None None None None;
                     sample 3 None None (Some 90%Q) None;
                     sample 4 None None (Some 40%Q) None;
                     sample 5 None None (Some 0%Q) None]
              [] "all" "ai_match_score" None in
  currentSort st = "ai_match_score" ∧
  id <$> sortedOpportunities EarlierFirst 0 st = [3; 1; 4; 2; 5] ∧
  StronglySorted (λ a b, (match_score b <= match_score a)%Q)
    (sortedOpportunities EarlierFirst 0 st).
Proof.
  intros st. split; [reflexivity|]. split; [reflexivity|].
  apply (sort_by_ai_match_score EarlierFirst 0 st). reflexivity.
Defined.

(** C7. Sorting by deadline on two records that both lack one: the
    comparator answers 1 whichever of them it is asked about first, so
    an engine that asks [comparefn(earlier, item)] moves the later record
    in front of the earlier one, while an engine that asks
    [comparefn(item, earlier)] leaves them as they were.  (Dated records
    first and in date order, and the order among records of one date, do
    not depend on the engine: [deadline_sorted], [deadline_stable_dated].) *)
Theorem deadline_sort_swaps_undated :
  let first := sample 1 None None None None in
  let second := sample 2 None None None None in
  let st := Manager [first; second; sample 3 None None None (Some 5)]
              [] "all" "deadline" None in
  comparator 0 "deadline" first second = Some 1%Q ∧
  comparator 0 "deadline" second first = Some 1%Q ∧
  id <$> sortedOpportunities EarlierFirst 0 st = [3; 2; 1] ∧
  id <$> sortedOpportunities LaterFirst 0 st = [3; 1; 2].
Proof. repeat split; reflexivity. Qed.

(** ** The board *)

Lemma column_of_closed opp :
  column_of opp = "closed" ↔
  status opp = Some "accepted" ∨ status opp = Some "rejected" ∨
  status opp = Some "closed".
Proof.
  unfold column_of. destruct (decide (_ ∨ _)) as [Hc|Hopen]; [tauto|].
  destruct (decide (_ ∈ _)) as [Hcol|Hcol].
  - split.
    + intros Hkey. right; right. destruct (status opp); simpl in *; congruence.
    + intros [?|[?|Hs]]; [tauto|tauto|]. by rewrite Hs.
  - split; [done|]. intros [?|[?|Hs]]; [tauto|tauto|].
    exfalso. apply Hcol. rewrite Hs. by apply (bool_decide_unpack _).
Qed.

(** The loop completes exactly on the lists whose records it accepts. *)
Lemma groupByStatus_throws (opps : list opportunity) :
  ¬ Forall groupable opps →
  groupByStatus statusGroups0 opps
  = Throw (TypeError "statusGroups[opp.status].push is not a function").
Proof.
  intros Hbad.
  cut (∀ groups seen, tracks groups seen →
         groupByStatus groups opps
         = Throw (TypeError "statusGroups[opp.status].push is not a function")).
  { intros Hcut. eapply Hcut, statusGroups0_tracks. }
  induction opps as [|opp opps IH]; intros groups seen Ht.
  { destruct Hbad. constructor. }
  simpl. destruct (decide (groupable opp)) as [Hopp|Hopp].
  - rewrite (place_tracks _ seen) by done.
    eapply IH; [|by apply push_tracks].
    intros Hrest. apply Hbad. by constructor.
  - by rewrite (place_throws _ seen).
Qed.

(** C1. A record whose status is the name of a property every object
    inherits stops the grouping loop with a TypeError: the record before
    it was pushed to its column, the record itself and those after it
    reach no column, and nothing of the board is written to the page. *)
Theorem grouping_throws_on_inherited_status :
  let view := [sample 1 None (Some "applied") (Some 90%Q) None;
               sample 2 None (Some "constructor") (Some 50%Q) None;
               sample 3 None (Some "prospect") (Some 10%Q) None] in
  let st := Manager view [] "all" "ai_match_score" None in
  place statusGroups0 (sample 2 None (Some "constructor") (Some 50%Q) None)
  = Throw (TypeError "statusGroups[opp.status].push is not a function") ∧
  groupByStatus statusGroups0 view
  = Throw (TypeError "statusGroups[opp.status].push is not a function") ∧
  renderOpportunities LaterFirst 0 (st, [])
  = (Throw (TypeError "statusGroups[opp.status].push is not a function"), (st, [])).
Proof. repeat split; reflexivity. Qed.

(** C4. A record whose status is "closed" is neither accepted nor rejected
    and has none of the five working statuses, yet the loop pushes it to the
    closed column, not to prospect: "closed" names a column of the board. *)
Theorem closed_status_lands_in_closed_column :
  let opp := sample 1 None (Some "closed") None None in
  ∃ statusGroups,
    groupByStatus statusGroups0 [opp] = Normal statusGroups ∧
    statusGroups !! "closed" = Some [opp] ∧
    statusGroups !! "prospect" = Some [].
Proof. eexists. repeat split; reflexivity. Qed.

(** ** The summary cards *)

(** C9, as claimed, fails on the ten records: the claimed conversion is
    1/6, the card shows 10 per cent, which is 1/10. *)
Lemma success_rate_counts_prospects :
  (claimed_overall_conversion ten_records == 1 # 6)%Q ∧
  successRate ten_records = 10 ∧
  ¬ (inject_Z (successRate ten_records) / 100 == claimed_overall_conversion ten_records)%Q.
Proof.
  split; [reflexivity|]. split; [reflexivity|].
  intros Heq. vm_compute in Heq. discriminate Heq.
Qed.

Lemma Math_round_bounds (x : Q) :
  (inject_Z (Math_round x) <= x + (1 # 2) ∧ x + (1 # 2) < inject_Z (Math_round x) + 1)%Q.
Proof.
  unfold Math_round. split; [apply Qfloor_le|].
  rewrite <- (inject_Z_plus _ 1). apply Qlt_floor.
Qed.

(** C9, as the code has it.  The rate on the summary card is the accepted
    records as a percentage of all stored records, prospects included,
    rounded to the nearest whole number, and 0 when there are no records.
    (The quotient is taken exactly here; in double arithmetic it can be off
    by a rounding error, which changes the rounded rate only when the exact
    percentage lies halfway between two whole numbers, and both of them
    satisfy the bounds.) *)
Theorem success_rate_is_share_of_all_records (opps : list opportunity) :
  let rate := successRate opps in
  let accepted := Z.of_nat (accepted_count opps) in
  let total := Z.of_nat (length opps) in
  (opps = [] → rate = 0) ∧
  (opps ≠ [] → (2 * rate - 1) * total ≤ 200 * accepted ≤ (2 * rate + 1) * total) ∧
  0 ≤ rate ≤ 100.
Proof.
  intros rate accepted total.
  assert (accepted ≤ total) as Hle.
  { unfold accepted, total, accepted_count. apply inj_le, length_filter. }
  assert (0 ≤ accepted) as Hacc by (unfold accepted; lia).
  destruct opps as [|opp opps].
  { repeat split; try done. }
  assert (0 < total) as Hpos by (unfold total; simpl; lia).
  assert (2 * (rate * total) ≤ 200 * accepted + total ∧
          200 * accepted + total < 2 * (rate * total) + 2 * total) as [Hlo Hhi].
  { unfold rate, successRate. rewrite decide_True by (simpl; lia).
    fold (accepted_count (opp :: opps)). fold accepted total.
    set (x := (inject_Z accepted / inject_Z total * 100)%Q).
    destruct (Math_round_bounds x) as [Hfloor Hceil].
    set (r := Math_round x) in *.
    assert (0 < inject_Z total)%Q as HposQ.
    { change 0%Q with (inject_Z 0). by rewrite <- Zlt_Qlt. }
    assert (x * inject_Z total == 100 * inject_Z accepted)%Q as Hx.
    { unfold x. field. lra. }
    split.
    - rewrite Zle_Qle. rewrite inject_Z_plus, !inject_Z_mult.
      change (inject_Z 2) with 2%Q. change (inject_Z 200) with 200%Q. nra.
    - rewrite Zlt_Qlt. rewrite !inject_Z_plus, !inject_Z_mult.
      change (inject_Z 2) with 2%Q. change (inject_Z 200) with 200%Q. nra. }
  split; [done|]. split; [intros _; lia|]. nia.
Qed.

Lemma success_rate_is_share_of_all_records_witness :
  ten_records ≠ [] ∧
  successRate ten_records = 10 ∧
  (2 * successRate ten_records - 1) * 10 ≤ 200 * 1 ≤ (2 * successRate ten_records + 1) * 10.
Proof.
  split; [discriminate|]. split; [reflexivity|].
  destruct (success_rate_is_share_of_all_records ten_records) as (_ & Hrate & _).
  apply Hrate. discriminate.
Defined.

(** ** Status updates *)

Lemma localUpdate_lookup id0 type0 actualStatus opps i opp :
  list_find (matches id0 type0) opps = Some (i, opp) →
  localUpdate id0 type0 actualStatus opps !! i = Some (set_status actualStatus opp) ∧
  ∀ j, j ≠ i → localUpdate id0 type0 actualStatus opps !! j = opps !! j.
Proof.
  intros Hfind. unfold localUpdate. rewrite Hfind.
  apply list_find_Some in Hfind as (Hi & _ & _). split.
  - by rewrite list_lookup_alter_eq, Hi.
  - intros j Hj. by rewrite list_lookup_alter_ne.
Qed.

Lemma localUpdate_groupable id0 type0 opps :
  Forall groupable opps → Forall groupable (localUpdate id0 type0 "rejected" opps).
Proof.
  intros Hg. unfold localUpdate. destruct (list_find _ _) as [[i opp]|]; [|done].
  apply Forall_alter; [done|]. intros x _ _. unfold groupable. simpl. tauto.
Qed.

Section StatusUpdates.
Variable e : engine.
Variable now : Z.
Variable net : network.

Lemma updateOpportunityStatus_written id0 type0 newStatus st log :
  let actualStatus := if decide (newStatus = "closed") then "rejected" else newStatus in
  let put := PUT (status_endpoint id0 type0) (StatusUpdate actualStatus) in
  write net log put = true →
  updateOpportunityStatus e now net id0 type0 newStatus (st, log)
  = rendered_and_confirmed e now net
      (set_opportunities (localUpdate id0 type0 actualStatus (opportunities st)) st,
       log ++ [Request put]).
Proof.
  intros actualStatus put Hok.
  unfold updateOpportunityStatus, rendered_and_confirmed, try_catch, axios_put,
    mbind, M_bind, history, emit, this. simpl.
  fold actualStatus. fold (status_endpoint id0 type0). fold put. rewrite Hok. simpl.
  unfold localUpdate.
  destruct (list_find _ _) as [[i opp]|]; simpl; [done|]. by destruct st.
Qed.

Lemma updateOpportunityStatus_failed id0 type0 newStatus st log :
  let actualStatus := if decide (newStatus = "closed") then "rejected" else newStatus in
  let put := PUT (status_endpoint id0 type0) (StatusUpdate actualStatus) in
  write net log put = false →
  updateOpportunityStatus e now net id0 type0 newStatus (st, log)
  = loadPipelineData e now net
      (st, log ++ [Request put; Console "error" "Failed to update status:";
                   Notification "Failed to update status" "error"]).
Proof.
  intros actualStatus put Hfail.
  unfold updateOpportunityStatus, try_catch at 1, axios_put,
    mbind, M_bind, history, emit, throw, showNotification, console, emit. simpl.
  fold actualStatus. fold (status_endpoint id0 type0). fold put. rewrite Hfail. simpl.
  by rewrite <- !app_assoc.
Qed.

Lemma rendered_and_confirmed_emits :
  emits (λ ev, ¬ is_write ev) (rendered_and_confirmed e now net).
Proof.
  unfold rendered_and_confirmed, showNotification, console.
  repeat emits_step; by intros [].
Qed.

(** A status update writes once, first, and to the status endpoint. *)
Lemma updateOpportunityStatus_writes_once id0 type0 newStatus st log :
  let actualStatus := if decide (newStatus = "closed") then "rejected" else newStatus in
  let put := PUT (status_endpoint id0 type0) (StatusUpdate actualStatus) in
  ∃ rest,
    (updateOpportunityStatus e now net id0 type0 newStatus (st, log)).2.2
    = log ++ Request put :: rest ∧
    Forall (λ ev, ¬ is_write ev) rest.
Proof.
  intros actualStatus put. destruct (write net log put) eqn:Hput.
  - rewrite updateOpportunityStatus_written by done.
    match goal with |- context [rendered_and_confirmed e now net ?w] =>
      destruct (rendered_and_confirmed_emits w) as (evs & Hlog & Hevs) end.
    rewrite Hlog. exists evs. simpl. by rewrite <- app_assoc.
  - rewrite updateOpportunityStatus_failed by done.
    match goal with |- context [loadPipelineData e now net ?w] =>
      destruct (loadPipelineData_emits e now net w) as (evs & Hlog & Hevs) end.
    rewrite Hlog. eexists. simpl. rewrite <- app_assoc. split; [done|].
    repeat (constructor; [by intros []|]). done.
Qed.

(** Rendering records the callback accepts completes, and shows every
    column. *)
Lemma renderOpportunities_normal st log :
  Forall groupable (opportunities st) →
  ∃ statusGroups,
    groupByStatus statusGroups0 (sortedOpportunities e now st) = Normal statusGroups ∧
    renderOpportunities e now (st, log)
    = (Normal (),
       (if decide (currentFilter st ≠ "all") then st
        else set_opportunities (sortedOpportunities e now st) st,
        log ++ [Counts (length <$> statusGroups); Cards statusGroups; DragAndDrop])).
Proof.
  intros Hg.
  assert (Forall groupable (sortedOpportunities e now st)) as Hsorted.
  { unfold sortedOpportunities. rewrite array_sort_perm.
    unfold filteredOpportunities. case_decide; [|done].
    rewrite Forall_forall in Hg |- *.
    intros opp [_ Hin]%list_elem_of_filter. by apply Hg. }
  destruct (groupByStatus_partition _ Hsorted) as (statusGroups & Hrun & _).
  exists statusGroups. split; [done|].
  unfold renderOpportunities, mbind, M_bind, this, emit, assign. simpl.
  rewrite Hrun. case_decide; simpl; by rewrite <- !app_assoc.
Qed.
End StatusUpdates.

(** C2. A drop on the closed column writes status "rejected", once, to the
    endpoint of the record's type, and issues no other write; the local
    update that follows a successful write sets the status of the first
    record with that id and type to "rejected" and leaves every other
    record as it was; the board is then rendered from that list, and when
    rendering completes the stored list is that list, rearranged at most,
    and the success notification is shown. *)
Theorem closed_drop_persists_rejected e now net id0 type0 st log :
  let put := PUT (status_endpoint id0 type0) (StatusUpdate "rejected") in
  let run := updateOpportunityStatus e now net id0 type0 "closed" (st, log) in
  let updated := localUpdate id0 type0 "rejected" (opportunities st) in
  (∃ rest, run.2.2 = log ++ Request put :: rest ∧ Forall (λ ev, ¬ is_write ev) rest) ∧
  (∀ i opp,
     list_find (matches id0 type0) (opportunities st) = Some (i, opp) →
     updated !! i = Some (set_status "rejected" opp) ∧
     status (set_status "rejected" opp) = Some "rejected" ∧
     ∀ j, j ≠ i → updated !! j = opportunities st !! j) ∧
  (write net log put = true →
   run = rendered_and_confirmed e now net
           (set_opportunities updated st, log ++ [Request put])) ∧
  (write net log put = true → Forall groupable (opportunities st) →
   run.1 = Normal () ∧
   opportunities run.2.1 ≡ₚ updated ∧
   ∃ shown, run.2.2 = (log ++ [Request put]) ++ shown
                      ++ [Notification "Status updated successfully" "success"]).
Proof.
  intros put run updated.
  split; [apply (updateOpportunityStatus_writes_once e now net id0 type0 "closed")|].
  split.
  { intros i opp Hfind.
    destruct (localUpdate_lookup id0 type0 "rejected" _ i opp Hfind) as [Hi Hj].
    done. }
  assert (write net log put = true →
          run = rendered_and_confirmed e now net
                  (set_opportunities updated st, log ++ [Request put])) as Hrun.
  { intros Hok. by apply (updateOpportunityStatus_written e now net id0 type0 "closed"). }
  split; [exact Hrun|].
  intros Hok Hg. rewrite (Hrun Hok).
  assert (Forall groupable (opportunities (set_opportunities updated st))) as Hg'.
  { simpl. by apply localUpdate_groupable. }
  destruct (renderOpportunities_normal e now _ (log ++ [Request put]) Hg')
    as (statusGroups & _ & Hrender).
  unfold rendered_and_confirmed, try_catch, mbind, M_bind, showNotification, emit.
  rewrite Hrender. simpl. split; [done|].
  split; [|eexists; symmetry; apply app_assoc].
  clear Hrender. destruct (decide (currentFilter st ≠ "all")) as [Hf|Hf]; simpl.
  { reflexivity. }
  unfold sortedOpportunities, filteredOpportunities. simpl.
  rewrite decide_False by done. apply array_sort_perm.
Qed.

Lemma closed_drop_persists_rejected_witness :
  let offer := sample 4 (Some "advisor") (Some "offer_received") (Some 70%Q) None in
  let st := Manager [sample 3 None (Some "applied") (Some 90%Q) None; offer]
              [] "all" "ai_match_score" None in
  let net := steady_server [] [] in
  let run := updateOpportunityStatus LaterFirst 0 net 4 "advisor" "closed" (st, []) in
  write net [] (PUT (ExecutiveOpportunityStatus 4) (StatusUpdate "rejected")) = true ∧
  Forall groupable (opportunities st) ∧
  run.1 = Normal () ∧
  status <$> opportunities run.2.1 = [Some "applied"; Some "rejected"] ∧
  head run.2.2
  = Some (Request (PUT (ExecutiveOpportunityStatus 4) (StatusUpdate "rejected"))).
Proof.
  intros offer st net run.
  assert (Forall groupable (opportunities st)) as Hg.
  { apply (bool_decide_unpack _). by vm_compute. }
  destruct (closed_drop_persists_rejected LaterFirst 0 net 4 "advisor" st [])
    as (_ & _ & _ & Hdone).
  destruct (Hdone eq_refl Hg) as (Hnormal & _ & _).
  split; [reflexivity|]. split; [exact Hg|]. split; [exact Hnormal|].
  split; reflexivity.
Defined.



(** ** Saving the form *)

Lemma not_write_not_scoring ev : ¬ is_write ev → ¬ is_scoring ev.
Proof. by destruct ev as [[| |[] ?]| | | | | | | |]. Qed.

Section Saving.
Variable e : engine.
Variable now : Z.
Variable net : network.

Lemma after_save_emits : emits (λ ev, ¬ is_write ev) (after_save e now net).
Proof.
  unfold after_save, closeOpportunityModal, showNotification.
  repeat emits_step; by intros [].
Qed.

Lemma save_failed_emits err : emits (λ ev, ¬ is_write ev) (save_failed err).
Proof.
  unfold save_failed, console, showNotification. repeat emits_step; by intros [].
Qed.

#[local] Ltac run_save :=
  unfold saveOpportunity, after_save, save_failed, try_catch, axios_post_score,
    axios_post, axios_put, closeOpportunityModal, showNotification, console,
    mbind, M_bind, this, history, emit, assign, throw; simpl.

(** Creation when scoring fails. *)
Lemma saveOpportunity_unscored value st log :
  editingOpportunity st = None →
  score net log (scoring_request (formData_of value)) = None →
  saveOpportunity e now net value (st, log)
  = try_catch
      (axios_post net (creation_endpoint (formData_of value))
         (FormData (Form.set_ai_match_score (Some 50%Q) (formData_of value)));;
       after_save e now net)
      save_failed
      (st, log ++ [Request (scoring_request (formData_of value));
                   Console "warn" "AI scoring failed, using default score"]).
Proof.
  intros Hnew Hscore. unfold scoring_request in Hscore. simpl in Hscore.
  run_save. rewrite Hnew. simpl. rewrite Hscore. simpl.
  rewrite <- !app_assoc. simpl. by destruct (write net _ _).
Qed.

(** Creation when scoring answers. *)
Lemma saveOpportunity_scored value st log answer :
  editingOpportunity st = None →
  score net log (scoring_request (formData_of value)) = Some answer →
  saveOpportunity e now net value (st, log)
  = try_catch
      (axios_post net (creation_endpoint (formData_of value))
         (FormData (Form.set_ai_match_score answer (formData_of value)));;
       after_save e now net)
      save_failed
      (st, log ++ [Request (scoring_request (formData_of value))]).
Proof.
  intros Hnew Hscore. unfold scoring_request in Hscore. simpl in Hscore.
  run_save. rewrite Hnew. simpl. rewrite Hscore. simpl.
  rewrite <- ?app_assoc. simpl. by destruct (write net _ _).
Qed.

(** Editing. *)
Lemma saveOpportunity_edit value st log editing :
  editingOpportunity st = Some editing →
  saveOpportunity e now net value (st, log)
  = try_catch
      (axios_put net
         (if decide (type editing = Some "speaking")
          then SpeakingOpportunity (id editing)
          else ExecutiveOpportunity (id editing))
         (FormData (formData_of value));;
       after_save e now net)
      save_failed
      (st, log).
Proof.
  intros Hedit. run_save. rewrite Hedit. simpl.
  by destruct (write net _ _).
Qed.

Lemma created_then_saved formData :
  starts_with (λ ev, ¬ is_write ev)
    (Request (POST (creation_endpoint (formData_of formData.1)) (FormData formData.2)))
    (try_catch
       (axios_post net (creation_endpoint (formData_of formData.1))
          (FormData formData.2);;
        after_save e now net)
       save_failed).
Proof.
  apply starts_with_try_catch; [|apply save_failed_emits].
  apply axios_post_starts. intros _. apply after_save_emits.
Qed.
End Saving.

(** C6. When the scoring request of a creation fails, the opportunity is
    posted to the creation endpoint with [ai_match_score] 50, and nothing
    else is written afterwards; a creation asks for a score once, before
    anything else; an edit never asks for one. *)
Theorem scoring_failure_defaults_to_50 e now net value st log :
  let formData := formData_of value in
  let run := saveOpportunity e now net value (st, log) in
  (editingOpportunity st = None →
   score net log (scoring_request formData) = None →
   ∃ rest,
     run.2.2
     = log ++ [Request (scoring_request formData);
               Console "warn" "AI scoring failed, using default score";
               Request (POST (creation_endpoint formData)
                          (FormData (Form.set_ai_match_score (Some 50%Q) formData)))]
       ++ rest ∧
     Forall (λ ev, ¬ is_write ev) rest) ∧
  Form.ai_match_score (Form.set_ai_match_score (Some 50%Q) formData) = Some 50%Q ∧
  (editingOpportunity st = None →
   ∃ rest, run.2.2 = log ++ Request (scoring_request formData) :: rest ∧
           Forall (λ ev, ¬ is_scoring ev) rest) ∧
  (∀ editing, editingOpportunity st = Some editing →
   ∃ evs, run.2.2 = log ++ evs ∧ Forall (λ ev, ¬ is_scoring ev) evs).
Proof.
  intros formData run. subst run formData.
  assert (∀ body w,
    ∃ rest,
      (try_catch
         (axios_post net (creation_endpoint (formData_of value)) (FormData body);;
          after_save e now net)
         save_failed w).2.2
      = w.2 ++ Request (POST (creation_endpoint (formData_of value)) (FormData body)) :: rest ∧
      Forall (λ ev, ¬ is_write ev) rest) as Hcreated.
  { intros body w. apply (created_then_saved e now net (value, body)). }
  assert (∀ body, ¬ is_scoring
            (Request (POST (creation_endpoint (formData_of value)) (FormData body)))) as Hcreate.
  { intros body. unfold creation_endpoint. case_decide; by intros []. }
  split; [|split; [done|split]].
  - intros Hnew Hscore.
    rewrite saveOpportunity_unscored by done.
    destruct (Hcreated (Form.set_ai_match_score (Some 50%Q) (formData_of value))
                (st, log ++ [Request (scoring_request (formData_of value));
                             Console "warn" "AI scoring failed, using default score"]))
      as (rest & -> & Hrest).
    exists rest. simpl. by rewrite <- !app_assoc.
  - intros Hnew.
    destruct (score net log (scoring_request (formData_of value))) as [answer|] eqn:Hscore.
    + rewrite (saveOpportunity_scored _ _ _ _ _ _ answer) by done.
      destruct (Hcreated (Form.set_ai_match_score answer (formData_of value))
                  (st, log ++ [Request (scoring_request (formData_of value))]))
        as (rest & -> & Hrest).
      eexists. simpl. rewrite <- app_assoc. split; [done|].
      constructor; [apply Hcreate|].
      eapply Forall_impl; [exact Hrest|apply not_write_not_scoring].
    + rewrite saveOpportunity_unscored by done.
      destruct (Hcreated (Form.set_ai_match_score (Some 50%Q) (formData_of value))
                  (st, log ++ [Request (scoring_request (formData_of value));
                               Console "warn" "AI scoring failed, using default score"]))
        as (rest & -> & Hrest).
      eexists. simpl. rewrite <- app_assoc. split; [done|].
      constructor; [by intros []|]. constructor; [apply Hcreate|].
      eapply Forall_impl; [exact Hrest|apply not_write_not_scoring].
  - intros editing Hedit.
    rewrite (saveOpportunity_edit _ _ _ _ _ _ editing) by done.
    match goal with |- context [try_catch ?block ?handler ?w] =>
      assert (starts_with (λ ev, ¬ is_write ev)
                (Request (PUT (if decide (type editing = Some "speaking")
                               then SpeakingOpportunity (id editing)
                               else ExecutiveOpportunity (id editing))
                            (FormData (formData_of value))))
                (try_catch block handler)) as Hput end.
    { apply starts_with_try_catch; [|apply save_failed_emits].
      apply axios_put_starts. intros _. apply after_save_emits. }
    destruct (Hput (st, log)) as (rest & -> & Hrest).
    eexists. split; [done|]. constructor; [by intros []|].
    eapply Forall_impl; [exact Hrest|apply not_write_not_scoring].
Qed.

Lemma scoring_failure_defaults_to_50_witness :
  let st := Manager [] [] "all" "ai_match_score" None in
  let formData := formData_of advisor_form in
  editingOpportunity st = None ∧
  score unscored_server [] (scoring_request formData) = None ∧
  Form.requirements formData = ["governance"; "AI"; "risk"] ∧
  ∃ rest,
    (saveOpportunity LaterFirst 0 unscored_server advisor_form (st, [])).2.2
    = [Request (POST ScoreOpportunity (ScoreRequest "advisor" ["governance"; "AI"; "risk"]));
       Console "warn" "AI scoring failed, using default score";
       Request (POST ExecutiveOpportunities
                  (FormData (Form.set_ai_match_score (Some 50%Q) formData)))]
      ++ rest.
Proof.
  intros st formData.
  destruct (scoring_failure_defaults_to_50 LaterFirst 0 unscored_server advisor_form st [])
    as (Hfifty & _).
  destruct (Hfifty eq_refl eq_refl) as (rest & Hlog & _).
  split; [reflexivity|]. split; [reflexivity|]. split; [reflexivity|].
  exists rest. exact Hlog.
Defined.

(** * Further properties *)

(** ** The sort on any comparator *)

Section ArraySortMore.
Context {A : Type}.
Variable e : engine.

(** The sort only looks at the comparator on pairs of the array. *)
Lemma insert_item_ext (f g : A → A → option Q) item prefix :
  (∀ x, x ∈ prefix → f item x = g item x ∧ f x item = g x item) →
  insert_item e f item prefix = insert_item e g item prefix.
Proof.
  induction prefix as [|earlier prefix IH]; intros Hfg; [done|].
  cbn [insert_item].
  destruct (Hfg earlier) as [H1 H2]; [by left|].
  assert (moves_before e f item earlier = moves_before e g item earlier) as ->.
  { unfold moves_before, SortCompare. by rewrite H1, H2. }
  rewrite IH; [done|]. intros x Hx. apply Hfg. by right.
Qed.

Lemma array_sort_ext (f g : A → A → option Q) items :
  (∀ x y, x ∈ items → y ∈ items → f x y = g x y) →
  array_sort e f items = array_sort e g items.
Proof.
  intros Hfg. unfold array_sort. f_equal.
  cut (∀ prefix, (∀ x, x ∈ prefix → x ∈ items) →
         ∀ rest, (∀ x, x ∈ rest → x ∈ items) →
         insertion_loop e f prefix rest = insertion_loop e g prefix rest).
  { intros Hcut. apply Hcut; [by intros x ?%elem_of_nil|done]. }
  intros prefix Hprefix rest. revert prefix Hprefix.
  induction rest as [|item rest IH]; intros prefix Hprefix Hrest; [done|].
  cbn [insertion_loop].
  assert (item ∈ items) as Hitem by (apply Hrest; by left).
  rewrite (insert_item_ext f g).
  - apply IH.
    + intros x Hx. rewrite insert_item_perm in Hx.
      apply elem_of_cons in Hx as [->|Hx]; [done|by apply Hprefix].
    + intros x Hx. apply Hrest. by right.
  - intros x Hx. split; apply Hfg; auto.
Qed.

Lemma Sorted_weaken (R R' : relation A) (l : list A) :
  (∀ x y, R x y → R' x y) → Sorted R l → Sorted R' l.
Proof.
  intros HR. induction 1 as [|x l Hl IH Hhd]; constructor; [done|].
  destruct Hhd; constructor; auto.
Qed.

(** An array in which no element has to move in front of the one before
    it is left as it is. *)
Lemma array_sort_fixed (f : A → A → option Q) items :
  Sorted (λ earlier later, moves_before e f later earlier = false) items →
  array_sort e f items = items.
Proof.
  intros Hsorted. unfold array_sort.
  cut (∀ prefix,
         (∀ earlier later, head prefix = Some earlier → head items = Some later →
            moves_before e f later earlier = false) →
         insertion_loop e f prefix items = rev items ++ prefix).
  { intros Hcut. rewrite Hcut; [|done]. by rewrite app_nil_r, rev_involutive. }
  induction Hsorted as [|item items Hitems IH Hhd]; intros prefix Hprefix; [done|].
  cbn [insertion_loop].
  assert (insert_item e f item prefix = item :: prefix) as ->.
  { destruct prefix as [|earlier prefix]; [done|]. cbn [insert_item].
    by rewrite (Hprefix earlier item). }
  rewrite IH.
  - simpl. by rewrite <- app_assoc.
  - intros earlier later [= <-] Hlater. destruct Hhd as [|later' items' Hrel]; [done|].
    by injection Hlater as <-.
Qed.
End ArraySortMore.

(** ** The view under each sort key *)

Lemma created_moves_before e now item earlier :
  moves_before e (comparator now "created_at") item earlier
  = bool_decide (created_key now earlier < created_key now item).
Proof.
  unfold moves_before, SortCompare, comparator.
  rewrite decide_False, decide_True by done. simpl.
  fold (created_key now earlier) (created_key now item).
  destruct e; rewrite Qcompare_inject_Z_0.
  - destruct (Z.compare_spec (created_key now earlier - created_key now item) 0);
      case_bool_decide; try done; lia.
  - destruct (Z.compare_spec (created_key now item - created_key now earlier) 0);
      case_bool_decide; try done; lia.
Qed.

Lemma priority_rank_ranked opp :
  ranked opp → priority_rank (priority_level opp) = Some (rank_of opp).
Proof.
  unfold ranked, rank_of, priority_rank, get_property. intros Hranked.
  destruct (priority !! _); [done|]. by rewrite decide_False.
Qed.

(** The comparator of ranked records, read off their ranks. *)
Lemma priority_comparator_ranked now a b :
  ranked a → ranked b →
  comparator now "priority_level" a b = Some (inject_Z (rank_of b - rank_of a)).
Proof.
  intros Ha Hb. unfold comparator.
  rewrite decide_False, decide_False, decide_False, decide_True by done.
  by rewrite !priority_rank_ranked.
Qed.

Lemma rank_moves_before e item earlier :
  moves_before e (λ a b, Some (inject_Z (rank_of b - rank_of a))) item earlier
  = bool_decide (rank_of earlier < rank_of item).
Proof.
  unfold moves_before, SortCompare. simpl.
  destruct e; rewrite Qcompare_inject_Z_0.
  - destruct (Z.compare_spec (rank_of earlier - rank_of item) 0);
      case_bool_decide; try done; lia.
  - destruct (Z.compare_spec (rank_of item - rank_of earlier) 0);
      case_bool_decide; try done; lia.
Qed.

Lemma unknown_key_comparator now key a b :
  key ∉ sort_keys → comparator now key a b = Some 0%Q.
Proof.
  intros Hkey. unfold comparator.
  repeat (rewrite decide_False;
          [|intros ->; apply Hkey; by apply (bool_decide_unpack _)]).
  done.
Qed.

(** X1. Whatever the sort key and the engine, the view holds the records
    of the filtered list, each as often as there: under the filter "all"
    every stored record, under a type filter the stored records of exactly
    that type. *)
Theorem view_holds_the_filtered_records e now st :
  sortedOpportunities e now st ≡ₚ filteredOpportunities st ∧
  length (sortedOpportunities e now st) = length (filteredOpportunities st) ∧
  ∀ opp, opp ∈ sortedOpportunities e now st ↔
         opp ∈ opportunities st ∧
         (currentFilter st = "all" ∨ type opp = Some (currentFilter st)).
Proof.
  assert (sortedOpportunities e now st ≡ₚ filteredOpportunities st) as Hperm.
  { apply array_sort_perm. }
  split; [done|]. split; [by rewrite Hperm|].
  intros opp. rewrite Hperm. unfold filteredOpportunities.
  case_decide as Hfilter.
  - rewrite list_elem_of_filter. tauto.
  - destruct (decide (currentFilter st = "all")); [tauto|]. tauto.
Qed.

(** X2. Sorted by "deadline", on every engine: records come out in
    non-decreasing order of deadline with the undated ones last, and the
    records due at one time keep the order of the filtered list; on an
    engine that asks [comparefn(item, earlier)] the undated records keep
    their order too. *)
Theorem sort_by_deadline e now st :
  currentSort st = "deadline" →
  StronglySorted deadline_le (sortedOpportunities e now st) ∧
  (∀ d : Z,
     filter (λ opp, deadline opp = Some d) (sortedOpportunities e now st)
     = filter (λ opp, deadline opp = Some d) (filteredOpportunities st)) ∧
  (e = LaterFirst →
   filter (λ opp, deadline opp = None) (sortedOpportunities e now st)
   = filter (λ opp, deadline opp = None) (filteredOpportunities st)).
Proof.
  intros Hsort. unfold sortedOpportunities. rewrite Hsort.
  split; [apply deadline_sorted|]. split.
  - intros d. apply deadline_stable_dated.
  - intros ->. apply deadline_stable_undated_LaterFirst.
Qed.

Lemma sort_by_deadline_witness :
  let st := Manager [sample 1 None None None None;
                     sample 2 None None None (Some 9);
                     sample 3 None None None (Some 4);
                     sample 4 None None None (Some 9)]
              [] "all" "deadline" None in
  currentSort st = "deadline" ∧
  id <$> sortedOpportunities EarlierFirst 0 st = [3; 2; 4; 1] ∧
  StronglySorted deadline_le (sortedOpportunities EarlierFirst 0 st).
Proof.
  intros st. split; [reflexivity|]. split; [reflexivity|].
  apply (sort_by_deadline EarlierFirst 0 st). reflexivity.
Defined.

(** X3. Sorted by "created_at", when every record of the filtered list
    has a creation time: the clock is not consulted, the most recent record
    comes first, and records created at one time keep the order of the
    filtered list, on every engine. *)
Theorem sort_by_created_at e now st :
  currentSort st = "created_at" →
  Forall (λ opp, is_Some (created_at opp)) (filteredOpportunities st) →
  (∀ now', sortedOpportunities e now' st = sortedOpportunities e now st) ∧
  StronglySorted (λ a b, created_key now b ≤ created_key now a)
    (sortedOpportunities e now st) ∧
  ∀ t : Z,
    filter (λ opp, created_at opp = Some t) (sortedOpportunities e now st)
    = filter (λ opp, created_at opp = Some t) (filteredOpportunities st).
Proof.
  intros Hsort Hdated. unfold sortedOpportunities. rewrite Hsort.
  split; [|split].
  - intros now'. apply array_sort_ext. intros x y Hx Hy.
    rewrite Forall_forall in Hdated.
    destruct (Hdated x Hx) as [tx Htx], (Hdated y Hy) as [ty Hty].
    unfold comparator. rewrite decide_False, decide_True by done.
    by rewrite Htx, Hty.
  - apply (array_sort_sorted e _ (λ y x, created_key now y ≤ created_key now x)).
    + intros x y z ??. lia.
    + intros item earlier. rewrite created_moves_before.
      intros ?%bool_decide_eq_false. lia.
    + intros item earlier. rewrite created_moves_before.
      intros ?%bool_decide_eq_true. lia.
  - intros t. apply array_sort_stable. intros item earlier.
    rewrite created_moves_before. unfold created_key.
    intros ?%bool_decide_eq_true Hi He. rewrite Hi, He in *. simpl in *. lia.
Qed.

Lemma sort_by_created_at_witness :
  let made t n := Opportunity n None None None None None None None None None None
                    (Some t) [] None None None None None in
  let st := Manager [made 100 1; made 900 2; made 100 3; made 500 4]
              [] "all" "created_at" None in
  currentSort st = "created_at" ∧
  Forall (λ opp, is_Some (created_at opp)) (filteredOpportunities st) ∧
  id <$> sortedOpportunities EarlierFirst 0 st = [2; 4; 1; 3] ∧
  StronglySorted (λ a b, created_key 0 b ≤ created_key 0 a)
    (sortedOpportunities EarlierFirst 0 st).
Proof.
  intros made st.
  assert (Forall (λ opp, is_Some (created_at opp)) (filteredOpportunities st)) as Hdated.
  { repeat constructor; by eexists. }
  split; [reflexivity|]. split; [exact Hdated|]. split; [reflexivity|].
  apply (sort_by_created_at EarlierFirst 0 st eq_refl Hdated).
Defined.

(** X4. Sorted by "priority_level", when no priority of the filtered list
    names a property the rank table inherits: records come out by
    non-increasing rank (critical 4, high 3, medium 2, low 1, anything else
    and a missing priority 0), and the records of one rank keep the order of
    the filtered list, on every engine. *)
Theorem sort_by_priority_level e now st :
  currentSort st = "priority_level" →
  Forall ranked (filteredOpportunities st) →
  StronglySorted (λ a b, rank_of b ≤ rank_of a) (sortedOpportunities e now st) ∧
  ∀ r : Z,
    filter (λ opp, rank_of opp = r) (sortedOpportunities e now st)
    = filter (λ opp, rank_of opp = r) (filteredOpportunities st).
Proof.
  intros Hsort Hranked. unfold sortedOpportunities. rewrite Hsort.
  rewrite (array_sort_ext e _ (λ a b, Some (inject_Z (rank_of b - rank_of a)))).
  2:{ intros x y Hx Hy. rewrite Forall_forall in Hranked.
      apply priority_comparator_ranked; by apply Hranked. }
  split.
  - apply (array_sort_sorted e _ (λ y x, rank_of y ≤ rank_of x)).
    + intros x y z ??. lia.
    + intros item earlier. rewrite rank_moves_before.
      intros ?%bool_decide_eq_false. lia.
    + intros item earlier. rewrite rank_moves_before.
      intros ?%bool_decide_eq_true. lia.
  - intros r. apply array_sort_stable. intros item earlier.
    rewrite rank_moves_before. intros ?%bool_decide_eq_true. lia.
Qed.

Lemma sort_by_priority_level_witness :
  let level p n := Opportunity n None None None None None None p None None None
                     None [] None None None None None in
  let st := Manager [level (Some "low") 1; level (Some "urgent") 2;
                     level (Some "critical") 3; level None 4;
                     level (Some "medium") 5; level (Some "critical") 6]
              [] "all" "priority_level" None in
  currentSort st = "priority_level" ∧
  Forall ranked (filteredOpportunities st) ∧
  id <$> sortedOpportunities LaterFirst 0 st = [3; 6; 5; 1; 2; 4] ∧
  StronglySorted (λ a b, rank_of b ≤ rank_of a) (sortedOpportunities LaterFirst 0 st).
Proof.
  intros level st.
  assert (Forall ranked (filteredOpportunities st)) as Hranked.
  { apply (bool_decide_unpack _). by vm_compute. }
  split; [reflexivity|]. split; [exact Hranked|]. split; [reflexivity|].
  apply (sort_by_priority_level LaterFirst 0 st eq_refl Hranked).
Defined.

(** X5. Under a sort key the comparator does not know, the view is the
    filtered list, in its order. *)
Theorem unknown_sort_key_keeps_order e now st :
  currentSort st ∉ sort_keys →
  sortedOpportunities e now st = filteredOpportunities st.
Proof.
  intros Hkey. unfold sortedOpportunities. apply array_sort_fixed.
  assert (∀ item earlier,
            moves_before e (comparator now (currentSort st)) item earlier = false)
    as Hstill.
  { intros item earlier. unfold moves_before, SortCompare.
    rewrite !unknown_key_comparator by done. by destruct e. }
  induction (filteredOpportunities st) as [|opp opps IH]; constructor; [done|].
  destruct opps; constructor. apply Hstill.
Qed.

Lemma unknown_sort_key_keeps_order_witness :
  let st := Manager [sample 1 None None (Some 10%Q) None;
                     sample 2 None None (Some 90%Q) None]
              [] "all" "title" None in
  (currentSort st ∉ sort_keys) ∧
  id <$> sortedOpportunities EarlierFirst 0 st = [1; 2].
Proof.
  intros st.
  assert (currentSort st ∉ sort_keys) as Hkey.
  { apply (bool_decide_unpack _). by vm_compute. }
  split; [exact Hkey|].
  by rewrite (unknown_sort_key_keeps_order EarlierFirst 0 st Hkey).
Defined.

Lemma rendered_opportunities e now st log :
  currentFilter st = "all" →
  opportunities (renderOpportunities e now (st, log)).2.1
  = array_sort e (comparator now (currentSort st)) (opportunities st).
Proof.
  intros Hall. unfold renderOpportunities, mbind, M_bind, this, assign. simpl.
  rewrite decide_False by tauto. simpl.
  unfold sortedOpportunities. rewrite filteredOpportunities_all by done.
  by destruct (groupByStatus _ _).
Qed.

(** X6. Sorting by "ai_match_score" a list that is already sorted that way
    changes nothing: under the filter "all", rendering a second time
    leaves the stored list as the first rendering left it. *)
Theorem rendering_again_keeps_score_order e now st log log' :
  currentSort st = "ai_match_score" →
  currentFilter st = "all" →
  let once := (renderOpportunities e now (st, log)).2.1 in
  opportunities (renderOpportunities e now (once, log')).2.1 = opportunities once.
Proof.
  intros Hsort Hall once.
  assert (currentFilter once = "all" ∧ currentSort once = "ai_match_score") as [Hall' Hsort'].
  { unfold once, renderOpportunities, mbind, M_bind, this, assign. simpl.
    rewrite decide_False by tauto. simpl.
    by destruct (groupByStatus _ _). }
  pose proof (rendered_opportunities e now st log Hall) as Honce.
  rewrite (rendered_opportunities e now once log' Hall').
  fold once in Honce. rewrite Hsort', Honce, Hsort.
  apply array_sort_fixed.
  eapply Sorted_weaken; [|apply StronglySorted_Sorted, score_sorted].
  intros x y Hxy. simpl in Hxy.
  destruct (moves_before _ _ y x) eqn:Hm; [|done].
  apply score_moves_before in Hm. lra.
Qed.

Lemma rendering_again_keeps_score_order_witness :
  let st := Manager [sample 1 None (Some "applied") (Some 40%Q) None;
                     sample 2 None (Some "prospect") (Some 90%Q) None]
              [] "all" "ai_match_score" None in
  let once := (renderOpportunities LaterFirst 0 (st, [])).2.1 in
  currentSort st = "ai_match_score" ∧
  currentFilter st = "all" ∧
  id <$> opportunities once = [2; 1] ∧
  id <$> opportunities (renderOpportunities LaterFirst 0 (once, [])).2.1 = [2; 1].
Proof.
  intros st once. split; [reflexivity|]. split; [reflexivity|]. split; [reflexivity|].
  unfold once.
  by rewrite (rendering_again_keeps_score_order LaterFirst 0 st [] [] eq_refl eq_refl).
Defined.

(** ** The board of a view *)

Lemma view_groupable e now st :
  Forall groupable (filteredOpportunities st) ↔
  Forall groupable (sortedOpportunities e now st).
Proof. unfold sortedOpportunities. by rewrite array_sort_perm. Qed.

Lemma renderOpportunities_completes e now st log :
  Forall groupable (filteredOpportunities st) →
  ∃ statusGroups,
    groupByStatus statusGroups0 (sortedOpportunities e now st) = Normal statusGroups ∧
    renderOpportunities e now (st, log)
    = (Normal (),
       (if decide (currentFilter st ≠ "all") then st
        else set_opportunities (sortedOpportunities e now st) st,
        log ++ [Counts (length <$> statusGroups); Cards statusGroups; DragAndDrop])).
Proof.
  intros Hg. apply (view_groupable e now) in Hg.
  destruct (groupByStatus_partition _ Hg) as (statusGroups & Hrun & _).
  exists statusGroups. split; [done|].
  unfold renderOpportunities, mbind, M_bind, this, emit, assign. simpl.
  rewrite Hrun. case_decide; simpl; by rewrite <- !app_assoc.
Qed.

Lemma renderOpportunities_throws e now st log :
  ¬ Forall groupable (filteredOpportunities st) →
  renderOpportunities e now (st, log)
  = (Throw (TypeError "statusGroups[opp.status].push is not a function"),
     (if decide (currentFilter st ≠ "all") then st
      else set_opportunities (sortedOpportunities e now st) st,
      log)).
Proof.
  intros Hbad. rewrite (view_groupable e now) in Hbad.
  unfold renderOpportunities, mbind, M_bind, this, emit, assign, throw. simpl.
  rewrite (groupByStatus_throws _ Hbad). by case_decide.
Qed.





(** X9. Where the loop puts a record it accepts (it is pushed to
    [column_of]): in "closed" when its status is accepted, rejected or
    closed; in the column of a working status when it has exactly that
    status; in "prospect" in every other case, a missing status included. *)
Theorem column_of_status opp :
  (groupable opp →
   place statusGroups0 opp = Normal (push (column_of opp) opp statusGroups0)) ∧
  (column_of opp = "closed" ↔
   status opp = Some "accepted" ∨ status opp = Some "rejected" ∨
   status opp = Some "closed") ∧
  (∀ key, key ∈ ["applied"; "interview_stage"; "under_consideration"; "offer_received"] →
     column_of opp = key ↔ status opp = Some key) ∧
  (column_of opp = "prospect" ↔
   status opp ∉ (Some <$> ["accepted"; "rejected"; "closed"; "applied";
                           "interview_stage"; "under_consideration";
                           "offer_received"])).
Proof.
  split; [apply (place_tracks _ []), statusGroups0_tracks|].
  split; [apply column_of_closed|].
  unfold column_of. generalize (status opp) as v. intros v.
  destruct (decide (v ∈ Some <$> ["prospect"; "accepted"; "rejected"; "closed";
                                  "applied"; "interview_stage";
                                  "under_consideration"; "offer_received"]))
    as [Hin|Hout].
  - simpl in Hin.
    repeat (apply elem_of_cons in Hin as [->|Hin]); [..|by apply elem_of_nil in Hin].
    all: split; [intros key Hkey;
                 repeat (apply elem_of_cons in Hkey as [->|Hkey]);
                 [..|by apply elem_of_nil in Hkey]|].
    all: by apply (bool_decide_unpack _).
  - assert (¬ (v = Some "accepted" ∨ v = Some "rejected")) as Hopen.
    { intros [->| ->]; apply Hout; by apply (bool_decide_unpack _). }
    assert (property_key v ∉ columns) as Hcol.
    { intros Hcol. destruct v as [s|]; simpl in Hcol.
      - unfold columns in Hcol.
        repeat (apply elem_of_cons in Hcol as [->|Hcol];
                [apply Hout; by apply (bool_decide_unpack _)|]).
        by apply elem_of_nil in Hcol.
      - revert Hcol. by apply (bool_decide_unpack _). }
    rewrite decide_False by done. rewrite decide_False by done. split.
    + intros key Hkey. split.
      * intros <-. revert Hkey. by apply (bool_decide_unpack _).
      * intros ->. exfalso. apply Hout. simpl.
        repeat (apply elem_of_cons in Hkey as [->|Hkey];
                [by apply (bool_decide_unpack _)|]).
        by apply elem_of_nil in Hkey.
    + split; [|done]. intros _ Hin. apply Hout. simpl in *.
      repeat (apply elem_of_cons in Hin as [->|Hin];
              [by apply (bool_decide_unpack _)|]).
      by apply elem_of_nil in Hin.
Qed.

Lemma column_of_status_witness :
  let opp := sample 1 None (Some "interview_stage") None None in
  groupable opp ∧
  place statusGroups0 opp = Normal (push "interview_stage" opp statusGroups0) ∧
  column_of opp = "interview_stage".
Proof.
  intros opp.
  assert (groupable opp) as Hg by (apply (bool_decide_unpack _); by vm_compute).
  destruct (column_of_status opp) as (Hplace & _ & Hworking & _).
  assert (column_of opp = "interview_stage") as Hcol.
  { apply Hworking; [|done]. by apply (bool_decide_unpack _). }
  split; [exact Hg|]. split; [|exact Hcol]. rewrite <- Hcol. by apply Hplace.
Defined.

(** ** Failures are caught *)

Lemma try_catch_completes (block : M unit) (handler : exn → M unit) w :
  (∀ err w', (handler err w').1 = Normal ()) →
  (try_catch block handler w).1 = Normal ().
Proof.
  intros Hhandler. unfold try_catch.
  destruct (block w) as [[[]|err] w']; [done|apply Hhandler].
Qed.

Lemma loadPipelineData_completes e now net w :
  (loadPipelineData e now net w).1 = Normal ().
Proof. unfold loadPipelineData. by apply try_catch_completes. Qed.

(** X10. No method of the controller that talks to the server ever throws:
    whatever the server answers and whatever the records hold, loading, a
    status update and saving the form complete normally, every failure
    having been caught. *)
Theorem methods_never_throw e now net w :
  (loadPipelineData e now net w).1 = Normal () ∧
  (∀ id0 type0 newStatus,
     (updateOpportunityStatus e now net id0 type0 newStatus w).1 = Normal ()) ∧
  (∀ value, (saveOpportunity e now net value w).1 = Normal ()).
Proof.
  split; [apply loadPipelineData_completes|]. split.
  - intros id0 type0 newStatus. unfold updateOpportunityStatus.
    apply try_catch_completes. intros err w'.
    unfold console, showNotification, emit, mbind, M_bind. simpl.
    apply loadPipelineData_completes.
  - intros value. unfold saveOpportunity. by apply try_catch_completes.
Qed.

(** ** Loading *)

(** X11. When the request for the executive collection fails, loading
    keeps every field of the controller as it was, logs the failure and
    shows "Failed to load pipeline data"; it does not ask for the speaking
    collection and renders nothing. *)
Theorem load_fails_at_first_request e now net st log :
  fetch net log ExecutiveOpportunities = None →
  loadPipelineData e now net (st, log)
  = (Normal (),
     (st, log ++ [Request (GET ExecutiveOpportunities);
                  Console "error" "Failed to load pipeline data:";
                  Notification "Failed to load pipeline data" "error"])).
Proof.
  intros Hfetch.
  unfold loadPipelineData, try_catch, axios_get, console, showNotification,
    mbind, M_bind, history, emit, throw. simpl.
  rewrite Hfetch. simpl. by rewrite <- !app_assoc.
Qed.

Lemma load_fails_at_first_request_witness :
  let st := Manager [sample 3 None (Some "applied") None None] [] "all" "deadline" None in
  fetch dead_server [] ExecutiveOpportunities = None ∧
  (loadPipelineData LaterFirst 0 dead_server (st, [])).2.1 = st.
Proof.
  intros st. split; [reflexivity|].
  by rewrite (load_fails_at_first_request LaterFirst 0 dead_server st [] eq_refl).
Defined.

(** X12. When the executive collection arrives and the request for the
    speaking collection fails, the stored list has already been replaced by
    the executive collection alone, as received: the speaking records shown
    before are gone from it, [speakingOpportunities] is unchanged, and
    neither the summary nor the board is written again. *)
Theorem load_fails_at_second_request e now net st log generic :
  fetch net log ExecutiveOpportunities = Some generic →
  fetch net (log ++ [Request (GET ExecutiveOpportunities)]) SpeakingOpportunities = None →
  loadPipelineData e now net (st, log)
  = (Normal (),
     (set_opportunities generic st,
      log ++ [Request (GET ExecutiveOpportunities);
              Request (GET SpeakingOpportunities);
              Console "error" "Failed to load pipeline data:";
              Notification "Failed to load pipeline data" "error"])).
Proof.
  intros Hexec Hspeaking.
  unfold loadPipelineData, try_catch, axios_get, console, showNotification,
    mbind, M_bind, history, emit, throw, assign. simpl.
  rewrite Hexec. simpl. rewrite Hspeaking. simpl. by rewrite <- !app_assoc.
Qed.

Lemma load_fails_at_second_request_witness :
  let generic := [sample 3 None (Some "applied") None None] in
  let net := {| fetch := λ _ url,
                  match url with ExecutiveOpportunities => Some generic | _ => None end;
                write := λ _ _, true; score := λ _ _, None |} in
  let st := Manager (mergeOpportunities generic [acme_talk]) [acme_talk]
              "all" "deadline" None in
  fetch net [] ExecutiveOpportunities = Some generic ∧
  fetch net [Request (GET ExecutiveOpportunities)] SpeakingOpportunities = None ∧
  id <$> opportunities st = [3; 7] ∧
  id <$> opportunities (loadPipelineData LaterFirst 0 net (st, [])).2.1 = [3] ∧
  speakingOpportunities (loadPipelineData LaterFirst 0 net (st, [])).2.1 = [acme_talk].
Proof.
  intros generic net st. split; [reflexivity|]. split; [reflexivity|].
  split; [reflexivity|].
  by rewrite (load_fails_at_second_request LaterFirst 0 net st [] generic eq_refl eq_refl).
Defined.

Lemma loadPipelineData_loaded e now net st log generic speaking :
  fetch net log ExecutiveOpportunities = Some generic →
  fetch net (log ++ [Request (GET ExecutiveOpportunities)]) SpeakingOpportunities
    = Some speaking →
  loadPipelineData e now net (st, log)
  = try_catch
      (updateSummaryCards;; renderOpportunities e now)
      (λ _,
       console "error" "Failed to load pipeline data:";;
       showNotification "Failed to load pipeline data" "error")
      (set_opportunities (mergeOpportunities generic speaking)
         (set_speakingOpportunities speaking st),
       log ++ [Request (GET ExecutiveOpportunities);
               Request (GET SpeakingOpportunities)]).
Proof.
  intros Hexec Hspeaking.
  unfold loadPipelineData, try_catch, axios_get, mbind, M_bind, history, emit,
    assign, this. simpl. rewrite Hexec. simpl. rewrite Hspeaking. simpl.
  rewrite <- ?app_assoc. reflexivity.
Qed.

(** X13. A load whose two requests are answered does not depend on the
    lists the controller held before: from two controllers with the same
    filter, sort key and edited record it ends in the same fields and
    writes the same things. *)
Theorem load_forgets_the_stored_lists e now net st1 st2 log generic speaking :
  fetch net log ExecutiveOpportunities = Some generic →
  fetch net (log ++ [Request (GET ExecutiveOpportunities)]) SpeakingOpportunities
    = Some speaking →
  currentFilter st1 = currentFilter st2 →
  currentSort st1 = currentSort st2 →
  editingOpportunity st1 = editingOpportunity st2 →
  loadPipelineData e now net (st1, log) = loadPipelineData e now net (st2, log).
Proof.
  intros Hexec Hspeaking Hfilter Hsort Hedit.
  rewrite !(loadPipelineData_loaded e now net _ log generic speaking) by done.
  destruct st1, st2. simpl in *. by subst.
Qed.

Lemma load_forgets_the_stored_lists_witness :
  let net := steady_server [sample 3 None (Some "applied") None None] [acme_talk] in
  let st1 := Manager [] [] "all" "deadline" None in
  let st2 := Manager [sample 9 None None None None] [acme_talk] "all" "deadline" None in
  loadPipelineData LaterFirst 0 net (st1, []) = loadPipelineData LaterFirst 0 net (st2, []).
Proof.
  intros net st1 st2.
  by apply (load_forgets_the_stored_lists LaterFirst 0 net st1 st2 []
              [sample 3 None (Some "applied") None None] [acme_talk]).
Defined.

Lemma rendered_fields_perm e now st :
  opportunities (if decide (currentFilter st ≠ "all") then st
                 else set_opportunities (sortedOpportunities e now st) st)
  ≡ₚ opportunities st.
Proof.
  case_decide as Hf; [reflexivity|]. simpl.
  unfold sortedOpportunities, filteredOpportunities.
  rewrite array_sort_perm. rewrite decide_False by tauto. reflexivity.
Qed.

Lemma summarised_and_rendered e now st log :
  let run := try_catch
               (updateSummaryCards;; renderOpportunities e now)
               (λ _,
                console "error" "Failed to load pipeline data:";;
                showNotification "Failed to load pipeline data" "error")
               (st, log) in
  opportunities run.2.1 ≡ₚ opportunities st ∧
  speakingOpportunities run.2.1 = speakingOpportunities st ∧
  ∃ interviews offers rate rest,
    run.2.2 = log ++ [SummaryCards (length (opportunities st)) interviews offers rate]
              ++ rest.
Proof.
  unfold try_catch, updateSummaryCards, console, showNotification,
    mbind, M_bind, this, emit. simpl.
  pose proof (rendered_fields_perm e now st) as Hperm.
  destruct (decide (Forall groupable (filteredOpportunities st))) as [Hg|Hbad].
  - match goal with |- context [renderOpportunities e now (?s, ?l)] =>
      destruct (renderOpportunities_completes e now s l Hg) as (statusGroups & _ & ->)
    end.
    simpl. split; [exact Hperm|]. split; [by case_decide|].
    eexists _, _, _, _. by rewrite <- !app_assoc.
  - match goal with |- context [renderOpportunities e now (?s, ?l)] =>
      rewrite (renderOpportunities_throws e now s l Hbad)
    end.
    simpl. split; [exact Hperm|]. split; [by case_decide|].
    eexists _, _, _, _. by rewrite <- !app_assoc.
Qed.

(** X14. After a load whose two requests are answered, the stored list
    holds the records of the executive collection and the projected
    speaking records, each once per occurrence: as many as both
    collections together, whether or not the board could be rendered; the
    summary card counts that many; and [speakingOpportunities] is the
    speaking collection as received. *)
Theorem load_stores_both_collections e now net st log generic speaking :
  fetch net log ExecutiveOpportunities = Some generic →
  fetch net (log ++ [Request (GET ExecutiveOpportunities)]) SpeakingOpportunities
    = Some speaking →
  let st' := (loadPipelineData e now net (st, log)).2.1 in
  opportunities st' ≡ₚ mergeOpportunities generic speaking ∧
  length (opportunities st') = (length generic + length speaking)%nat ∧
  speakingOpportunities st' = speaking ∧
  ∃ interviews offers rate rest,
    (loadPipelineData e now net (st, log)).2.2
    = log ++ [Request (GET ExecutiveOpportunities);
              Request (GET SpeakingOpportunities);
              SummaryCards (length generic + length speaking) interviews offers rate]
      ++ rest.
Proof.
  intros Hexec Hspeaking st'. unfold st'.
  rewrite (loadPipelineData_loaded e now net st log generic speaking) by done.
  match goal with |- context [try_catch _ _ (?s, ?l)] =>
    destruct (summarised_and_rendered e now s l)
      as (Hperm & Hkept & interviews & offers & rate & rest & Hlog)
  end.
  simpl in Hperm, Hkept, Hlog.
  assert (length (mergeOpportunities generic speaking)
          = (length generic + length speaking)%nat) as Hlen.
  { unfold mergeOpportunities. by rewrite length_app, length_fmap. }
  split; [exact Hperm|]. split; [by rewrite Hperm|]. split; [exact Hkept|].
  exists interviews, offers, rate, rest. rewrite Hlog, Hlen, <- !app_assoc. done.
Qed.

Lemma load_stores_both_collections_witness :
  let net := steady_server [sample 3 None (Some "applied") None None] [acme_talk] in
  let st := Manager [sample 9 None None None None] [] "speaking" "deadline" None in
  let st' := (loadPipelineData LaterFirst 0 net (st, [])).2.1 in
  opportunities st'
  ≡ₚ mergeOpportunities [sample 3 None (Some "applied") None None] [acme_talk] ∧
  length (opportunities st') = 2%nat ∧
  speakingOpportunities st' = [acme_talk].
Proof.
  intros net st st'.
  destruct (load_stores_both_collections LaterFirst 0 net st []
              [sample 3 None (Some "applied") None None] [acme_talk]
              eq_refl eq_refl) as (Hperm & Hlen & Hspeaking & _).
  split; [exact Hperm|]. split; [exact Hlen|exact Hspeaking].
Defined.

(** ** Status updates *)

Lemma column_of_dropped newStatus opp :
  newStatus ∈ columns →
  column_of (set_status (if decide (newStatus = "closed") then "rejected" else newStatus)
               opp) = newStatus.
Proof.
  unfold columns. intros Hcol.
  repeat (apply elem_of_cons in Hcol as [->|Hcol]; [reflexivity|]).
  by apply elem_of_nil in Hcol.
Qed.

Lemma dropped_groupable newStatus opp :
  newStatus ∈ columns →
  groupable (set_status (if decide (newStatus = "closed") then "rejected" else newStatus)
               opp).
Proof.
  intros Hcol. unfold groupable. case_decide as Hclosed; simpl; [tauto|].
  right. right. by apply columns_not_inherited.
Qed.

Lemma rendered_and_confirmed_shown e now net st log :
  Forall groupable (filteredOpportunities st) →
  ∃ statusGroups,
    groupByStatus statusGroups0 (sortedOpportunities e now st) = Normal statusGroups ∧
    rendered_and_confirmed e now net (st, log)
    = (Normal (),
       (if decide (currentFilter st ≠ "all") then st
        else set_opportunities (sortedOpportunities e now st) st,
        log ++ [Counts (length <$> statusGroups); Cards statusGroups; DragAndDrop;
                Notification "Status updated successfully" "success"])).
Proof.
  intros Hg.
  destruct (renderOpportunities_completes e now st log Hg) as (statusGroups & Hrun & Hshown).
  exists statusGroups. split; [done|].
  unfold rendered_and_confirmed, try_catch, showNotification, emit, mbind, M_bind.
  rewrite Hshown. simpl. by rewrite <- !app_assoc.
Qed.

Lemma rendered_and_confirmed_thrown e now net st log :
  ¬ Forall groupable (filteredOpportunities st) →
  rendered_and_confirmed e now net (st, log)
  = loadPipelineData e now net
      (if decide (currentFilter st ≠ "all") then st
       else set_opportunities (sortedOpportunities e now st) st,
       log ++ [Console "error" "Failed to update status:";
               Notification "Failed to update status" "error"]).
Proof.
  intros Hbad.
  unfold rendered_and_confirmed, try_catch, showNotification, console, emit,
    mbind, M_bind.
  rewrite (renderOpportunities_throws e now st log Hbad). simpl.
  by rewrite <- !app_assoc.
Qed.

(** X15. A card dropped on a column is shown in that column.  When the
    write is accepted, the records can all be grouped, and the record the
    update finds is in the view, the update writes once, draws the board
    once and shows "Status updated successfully"; in that board the updated
    record is among the cards of the column it was dropped on and of no
    other column. *)
Theorem dropped_card_lands_in_its_column e now net id0 type0 newStatus st log i found :
  let actualStatus := if decide (newStatus = "closed") then "rejected" else newStatus in
  let put := PUT (status_endpoint id0 type0) (StatusUpdate actualStatus) in
  newStatus ∈ columns →
  write net log put = true →
  Forall groupable (opportunities st) →
  list_find (matches id0 type0) (opportunities st) = Some (i, found) →
  currentFilter st = "all" ∨ type found = Some (currentFilter st) →
  ∃ statusGroups,
    (updateOpportunityStatus e now net id0 type0 newStatus (st, log)).2.2
    = log ++ [Request put; Counts (length <$> statusGroups); Cards statusGroups;
              DragAndDrop; Notification "Status updated successfully" "success"] ∧
    ∀ key, key ∈ columns →
      ∃ cards, statusGroups !! key = Some cards ∧
               (set_status actualStatus found ∈ cards ↔ key = newStatus).
Proof.
  intros actualStatus put Hcol Hok Hg Hfind Hview.
  rewrite updateOpportunityStatus_written by done. fold actualStatus.
  set (updated := localUpdate id0 type0 actualStatus (opportunities st)).
  set (st1 := set_opportunities updated st).
  assert (Forall groupable updated) as Hg1.
  { unfold updated, localUpdate. rewrite Hfind.
    apply Forall_alter; [done|]. intros x _ _. by apply dropped_groupable. }
  assert (set_status actualStatus found ∈ filteredOpportunities st1) as Hin.
  { assert (set_status actualStatus found ∈ updated) as Hin.
    { destruct (localUpdate_lookup id0 type0 actualStatus _ i found Hfind) as [Hi _].
      by eapply list_elem_of_lookup_2. }
    unfold filteredOpportunities. change (currentFilter st1) with (currentFilter st).
    change (opportunities st1) with updated.
    case_decide as Hf; [|done].
    apply list_elem_of_filter. split; [|done].
    destruct Hview as [Hall|Htype]; [by rewrite Hall in Hf|exact Htype]. }
  assert (Forall groupable (filteredOpportunities st1)) as Hg2.
  { unfold filteredOpportunities. change (opportunities st1) with updated.
    case_decide; [|done]. rewrite Forall_forall in Hg1. apply Forall_forall.
    intros x Hx. apply list_elem_of_filter in Hx as [_ Hx]. by apply Hg1. }
  destruct (rendered_and_confirmed_shown e now net st1 (log ++ [Request put]) Hg2)
    as (statusGroups & Hrun & Hshown).
  exists statusGroups.
  split; [etrans; [exact (f_equal (λ r, r.2.2) Hshown)|simpl; by rewrite <- !app_assoc]|].
  intros key Hkey.
  pose proof Hg2 as Hg3. apply (view_groupable e now) in Hg3.
  destruct (groupByStatus_partition _ Hg3) as (statusGroups' & Hrun' & Hcards & _).
  rewrite Hrun in Hrun'. injection Hrun' as <-.
  eexists. split; [by apply Hcards|].
  rewrite list_elem_of_filter. unfold actualStatus. rewrite column_of_dropped by done.
  split; [by intros [<- _]|]. intros ->. split; [done|].
  unfold sortedOpportunities. by rewrite array_sort_perm.
Qed.

Lemma dropped_card_lands_in_its_column_witness :
  let st := Manager [sample 1 None (Some "prospect") None None;
                     sample 2 None (Some "applied") None None] [] "all" "deadline" None in
  ∃ statusGroups,
    (updateOpportunityStatus LaterFirst 0 (steady_server [] []) 2 "executive"
       "interview_stage" (st, [])).2.2
    = [] ++ [Request (PUT (ExecutiveOpportunityStatus 2) (StatusUpdate "interview_stage"));
             Counts (length <$> statusGroups); Cards statusGroups; DragAndDrop;
             Notification "Status updated successfully" "success"] ∧
    ∀ key, key ∈ columns →
      ∃ cards, statusGroups !! key = Some cards ∧
               (sample 2 None (Some "interview_stage") None None ∈ cards
                ↔ key = "interview_stage").
Proof.
  intros st.
  apply (dropped_card_lands_in_its_column LaterFirst 0 (steady_server [] []) 2
           "executive" "interview_stage" st [] 1%nat
           (sample 2 None (Some "applied") None None)).
  - by apply (bool_decide_unpack _).
  - reflexivity.
  - by apply (bool_decide_unpack _).
  - reflexivity.
  - by left.
Defined.

(** X16. A write the server accepted is reported as failed when the board
    cannot be drawn afterwards.  If, after the local update, a record of
    the view has a status naming an inherited property, the update logs the
    error, shows "Failed to update status" and reloads, although the
    request succeeded; no success notification is shown, and the reload
    starts from the locally updated list. *)
Theorem accepted_write_reported_as_failed e now net id0 type0 newStatus st log :
  let actualStatus := if decide (newStatus = "closed") then "rejected" else newStatus in
  let put := PUT (status_endpoint id0 type0) (StatusUpdate actualStatus) in
  let updated :=
    set_opportunities (localUpdate id0 type0 actualStatus (opportunities st)) st in
  write net log put = true →
  ¬ Forall groupable (filteredOpportunities updated) →
  ∃ st',
    opportunities st' ≡ₚ opportunities updated ∧
    updateOpportunityStatus e now net id0 type0 newStatus (st, log)
    = loadPipelineData e now net
        (st', log ++ [Request put; Console "error" "Failed to update status:";
                      Notification "Failed to update status" "error"]).
Proof.
  intros actualStatus put updated Hok Hbad.
  exists (if decide (currentFilter updated ≠ "all") then updated
          else set_opportunities (sortedOpportunities e now updated) updated).
  split; [apply rendered_fields_perm|].
  etrans; [by apply updateOpportunityStatus_written|].
  etrans; [by apply rendered_and_confirmed_thrown|].
  by rewrite <- !app_assoc.
Qed.

Lemma accepted_write_reported_as_failed_witness :
  let st := Manager [sample 1 None (Some "prospect") None None] [] "all" "deadline" None in
  ∃ st',
    opportunities st' ≡ₚ [sample 1 None (Some "constructor") None None] ∧
    updateOpportunityStatus LaterFirst 0 (steady_server [] []) 1 "executive"
      "constructor" (st, [])
    = loadPipelineData LaterFirst 0 (steady_server [] [])
        (st', [] ++ [Request (PUT (ExecutiveOpportunityStatus 1)
                                (StatusUpdate "constructor"));
                     Console "error" "Failed to update status:";
                     Notification "Failed to update status" "error"]).
Proof.
  intros st.
  apply (accepted_write_reported_as_failed LaterFirst 0 (steady_server [] []) 1
           "executive" "constructor" st []).
  - reflexivity.
  - by apply (bool_decide_unpack _).
Defined.

(** ** Saving the form *)

Lemma after_save_run e now net st log :
  after_save e now net (st, log)
  = loadPipelineData e now net
      (set_editingOpportunity None st,
       log ++ [ModalHidden; FormCleared;
               Notification "Opportunity created successfully" "success"]).
Proof.
  unfold after_save, closeOpportunityModal, showNotification, emit, assign, this,
    mbind, M_bind. simpl. by rewrite <- !app_assoc.
Qed.

Lemma put_then_after_save e now net url data st log :
  try_catch (axios_put net url data;; after_save e now net) save_failed (st, log)
  = if write net log (PUT url data)
    then loadPipelineData e now net
           (set_editingOpportunity None st,
            log ++ [Request (PUT url data); ModalHidden; FormCleared;
                    Notification "Opportunity created successfully" "success"])
    else (Normal (),
          (st, log ++ [Request (PUT url data);
                       Console "error" "Failed to save opportunity:";
                       Notification "Failed to save opportunity" "error"])).
Proof.
  unfold try_catch, axios_put, mbind, M_bind, history, emit, throw. simpl.
  destruct (write net log (PUT url data)); simpl.
  - rewrite after_save_run, <- app_assoc. simpl.
    pose proof (loadPipelineData_completes e now net
      (set_editingOpportunity None st,
       log ++ [Request (PUT url data); ModalHidden; FormCleared;
               Notification "Opportunity created successfully" "success"])) as Hdone.
    destruct (loadPipelineData _ _ _ _) as [[[]|err] w']; [done|discriminate].
  - unfold save_failed, console, showNotification, emit, mbind, M_bind. simpl.
    by rewrite <- !app_assoc.
Qed.

Lemma post_then_after_save e now net url data st log :
  try_catch (axios_post net url data;; after_save e now net) save_failed (st, log)
  = if write net log (POST url data)
    then loadPipelineData e now net
           (set_editingOpportunity None st,
            log ++ [Request (POST url data); ModalHidden; FormCleared;
                    Notification "Opportunity created successfully" "success"])
    else (Normal (),
          (st, log ++ [Request (POST url data);
                       Console "error" "Failed to save opportunity:";
                       Notification "Failed to save opportunity" "error"])).
Proof.
  unfold try_catch, axios_post, mbind, M_bind, history, emit, throw. simpl.
  destruct (write net log (POST url data)); simpl.
  - rewrite after_save_run, <- app_assoc. simpl.
    pose proof (loadPipelineData_completes e now net
      (set_editingOpportunity None st,
       log ++ [Request (POST url data); ModalHidden; FormCleared;
               Notification "Opportunity created successfully" "success"])) as Hdone.
    destruct (loadPipelineData _ _ _ _) as [[[]|err] w']; [done|discriminate].
  - unfold save_failed, console, showNotification, emit, mbind, M_bind. simpl.
    by rewrite <- !app_assoc.
Qed.

Lemma loadPipelineData_events e now net :
  emits load_event (loadPipelineData e now net).
Proof.
  unfold loadPipelineData, axios_get, updateSummaryCards, renderOpportunities,
    console, showNotification.
  repeat emits_step; done.
Qed.

(** ** Fields no method touches *)

Lemma keeps_bind {A B C} (f : manager → C) (m : M A) (k : A → M B) :
  keeps f m → (∀ a, keeps f (k a)) → keeps f (m ≫= k).
Proof.
  intros Hm Hk w. unfold mbind, M_bind. specialize (Hm w).
  destruct (m w) as [[a|err] w']; [|done]. by rewrite Hk.
Qed.

Lemma keeps_try_catch {A C} (f : manager → C) (block : M A) (handler : exn → M A) :
  keeps f block → (∀ err, keeps f (handler err)) → keeps f (try_catch block handler).
Proof.
  intros Hm Hk w. unfold try_catch. specialize (Hm w).
  destruct (block w) as [[a|err] w']; [done|]. by rewrite Hk.
Qed.

Lemma keeps_silent {A C} (f : manager → C) (m : M A) :
  (∀ w, (m w).2.1 = w.1) → keeps f m.
Proof. intros Hm w. by rewrite Hm. Qed.

Lemma keeps_assign {C} (f : manager → C) (g : manager → manager) :
  (∀ st, f (g st) = f st) → keeps f (assign g).
Proof. intros Hg w. apply Hg. Qed.

#[local] Ltac keeps_step :=
  first
    [ apply keeps_bind; [|intros ?]
    | apply keeps_try_catch; [|intros ?]
    | apply keeps_assign; done
    | apply keeps_silent; done
    | match goal with |- keeps _ (match ?x with _ => _ end) => destruct x end
    | match goal with |- keeps _ (if ?x then _ else _) => destruct x end ].

Lemma renderOpportunities_keeps {C} (f : manager → C) e now :
  (∀ l st, f (set_opportunities l st) = f st) →
  keeps f (renderOpportunities e now).
Proof. intros Hf. unfold renderOpportunities. repeat keeps_step. Qed.

Lemma loadPipelineData_keeps {C} (f : manager → C) e now net :
  (∀ l st, f (set_opportunities l st) = f st) →
  (∀ l st, f (set_speakingOpportunities l st) = f st) →
  keeps f (loadPipelineData e now net).
Proof.
  intros Hf Hf'.
  unfold loadPipelineData, axios_get, updateSummaryCards, console, showNotification.
  repeat first [apply renderOpportunities_keeps; done | keeps_step].
Qed.




(** What a run of [saveOpportunity] comes to once the events [before] are
    written and [request] is the write to make. *)
Lemma written_or_refused e now net st log before request :
  Forall save_event (before ++ [Request request]) →
  let run :=
    if write net (log ++ before) request
    then loadPipelineData e now net
           (set_editingOpportunity None st,
            (log ++ before)
            ++ [Request request; ModalHidden; FormCleared;
                Notification "Opportunity created successfully" "success"])
    else (Normal (),
          (st, (log ++ before)
               ++ [Request request; Console "error" "Failed to save opportunity:";
                   Notification "Failed to save opportunity" "error"])) in
  ∃ evs, run.2.2 = log ++ evs ∧ save_outcome st run evs.
Proof.
  intros Hbefore run. subst run.
  rewrite Forall_forall in Hbefore.
  assert (∀ ev, ev ∈ before ∨ ev = Request request → save_event ev) as Hquiet.
  { intros ev Hev. apply Hbefore. rewrite elem_of_app, list_elem_of_singleton. tauto. }
  destruct (write net (log ++ before) request).
  - match goal with |- context [loadPipelineData e now net ?w] =>
      pose proof (loadPipelineData_keeps editingOpportunity e now net
                    ltac:(done) ltac:(done) w) as Hediting;
      destruct (loadPipelineData_events e now net w) as (evs & Hlog & Hevs);
      destruct (loadPipelineData_starts e now net w) as (rest & Hlog' & _)
    end.
    simpl in Hediting, Hlog, Hlog'. rewrite Hlog in Hlog'.
    apply app_inv_head in Hlog'. subst evs.
    rewrite Forall_forall in Hevs.
    eexists. split; [rewrite Hlog, <- !app_assoc; reflexivity|].
    unfold save_outcome.
    rewrite !elem_of_app, !elem_of_cons, !elem_of_nil.
    assert (∀ message kind,
              message ≠ "Opportunity created successfully" →
              message ≠ "Failed to load pipeline data" →
              ¬ (Notification message kind ∈ before
                 ∨ (Notification message kind = Request request
                    ∨ Notification message kind = ModalHidden
                    ∨ Notification message kind = FormCleared
                    ∨ Notification message kind
                      = Notification "Opportunity created successfully" "success"
                    ∨ False)
                 ∨ Notification message kind = Request (GET ExecutiveOpportunities)
                 ∨ Notification message kind ∈ rest)) as Hshown.
    { intros message kind Hcreated Hload Hin.
      repeat match type of Hin with _ ∨ _ => destruct Hin as [Hin|Hin] end;
        try done.
      - by apply (Hquiet _ (or_introl Hin)).
      - by injection Hin as -> _.
      - by destruct (Hevs _ (list_elem_of_further _ _ _ Hin)) as [? _]. }
    split; [by apply Hshown|]. split; [intros Hin; by apply Hshown in Hin|].
    + intros _. split; [exact Hediting|]. tauto.
  - eexists. split; [simpl; rewrite <- !app_assoc; reflexivity|].
    unfold save_outcome.
    rewrite !elem_of_app, !elem_of_cons, !elem_of_nil.
    split; [|split].
    + intros Hin.
      repeat match type of Hin with _ ∨ _ => destruct Hin as [Hin|Hin] end;
        try done.
      by apply (Hquiet _ (or_introl Hin)).
    + intros _. split; [done|].
      assert (∀ ev, ¬ save_event ev →
                    ev ≠ Notification "Failed to save opportunity" "error" →
                    ¬ (ev ∈ before ∨ ev = Request request
                       ∨ ev = Console "error" "Failed to save opportunity:"
                       ∨ ev = Notification "Failed to save opportunity" "error" ∨ False))
        as Hnot.
      { intros ev Hev Hne Hin.
        repeat match type of Hin with _ ∨ _ => destruct Hin as [Hin|Hin] end;
          try done.
        - by apply Hev, Hquiet; left.
        - by apply Hev, Hquiet; right.
        - subst. apply Hev. exact I. }
      split; [apply Hnot; [by intros []|done]|].
      split; [apply Hnot; [by intros []|done]|].
      intros url. rewrite elem_of_app, !elem_of_cons, elem_of_nil.
      apply Hnot; [by intros []|done].
    + intros Hnot. destruct Hnot. tauto.
Qed.

(** X18. Saving the form never announces an update, and it has two
    outcomes only.  Either it shows "Failed to save opportunity": then the
    controller's fields are as they were, the modal is still open, the form
    has not been cleared and nothing has been read again.  Or it closes the
    modal, clears the form, forgets the record being edited, shows
    "Opportunity created successfully" (after an edit too) and starts a
    load. *)
Theorem save_closes_the_form_or_reports_failure e now net value st log :
  let run := saveOpportunity e now net value (st, log) in
  ∃ evs, run.2.2 = log ++ evs ∧ save_outcome st run evs.
Proof.
  intros run. subst run.
  destruct (editingOpportunity st) as [editing|] eqn:Hediting.
  - rewrite (saveOpportunity_edit e now net value st log editing Hediting).
    rewrite put_then_after_save.
    match goal with |- context [write net log ?request] =>
      pose proof (written_or_refused e now net st log [] request) as Hrun
    end.
    simpl in Hrun. rewrite app_nil_r in Hrun. apply Hrun.
    by repeat constructor.
  - destruct (score net log (scoring_request (formData_of value)))
      as [answer|] eqn:Hscore.
    + rewrite (saveOpportunity_scored e now net value st log answer Hediting Hscore).
      rewrite post_then_after_save.
      match goal with |- context [write net (log ++ ?before) ?request] =>
        apply (written_or_refused e now net st log before request)
      end.
      by repeat constructor.
    + rewrite (saveOpportunity_unscored e now net value st log Hediting Hscore).
      rewrite post_then_after_save.
      match goal with |- context [write net (log ++ ?before) ?request] =>
        apply (written_or_refused e now net st log before request)
      end.
      by repeat constructor.
Qed.

(** X19. Saving an edit writes the form as it is, once, with PUT to the
    endpoint of the edited record (the speaking endpoint when its type is
    "speaking", the executive one otherwise).  When the write is refused
    the fields stay as they were and the failure is reported; when it is
    accepted the modal is closed, the edited record is forgotten, and the
    notification shown is "Opportunity created successfully", after which
    the data is loaded again. *)
Theorem saved_edit_is_announced_as_created e now net value st log editing :
  editingOpportunity st = Some editing →
  let put :=
    PUT (if decide (type editing = Some "speaking")
         then SpeakingOpportunity (id editing)
         else ExecutiveOpportunity (id editing))
      (FormData (formData_of value)) in
  saveOpportunity e now net value (st, log)
  = if write net log put
    then loadPipelineData e now net
           (set_editingOpportunity None st,
            log ++ [Request put; ModalHidden; FormCleared;
                    Notification "Opportunity created successfully" "success"])
    else (Normal (),
          (st, log ++ [Request put; Console "error" "Failed to save opportunity:";
                       Notification "Failed to save opportunity" "error"])).
Proof.
  intros Hediting put.
  rewrite (saveOpportunity_edit e now net value st log editing Hediting).
  apply put_then_after_save.
Qed.

Lemma saved_edit_is_announced_as_created_witness :
  let st := Manager [acme_talk] [] "all" "deadline" (Some (speakingAsExec acme_talk)) in
  let put := PUT (SpeakingOpportunity 7) (FormData (formData_of advisor_form)) in
  saveOpportunity LaterFirst 0 dead_server advisor_form (st, [])
  = (Normal (),
     (st, [Request put; Console "error" "Failed to save opportunity:";
           Notification "Failed to save opportunity" "error"])).
Proof.
  intros st put.
  exact (saved_edit_is_announced_as_created LaterFirst 0 dead_server advisor_form
           st [] (speakingAsExec acme_talk) eq_refl).
Defined.

(** ** Cards *)

(** X20. The id and type written on a card lead back to a stored record.
    For the card of a stored record, the search of [updateOpportunityStatus]
    and [editOpportunity] finds a record with that id and that card type, at
    or before the record's own position; it finds the record itself when no
    earlier record has the same id and card type. *)
Theorem card_finds_a_stored_record (opps : list opportunity) i opp :
  opps !! i = Some opp →
  ∃ j found,
    list_find (matches (id opp) (data_type opp)) opps = Some (j, found) ∧
    (j ≤ i)%nat ∧ id found = id opp ∧ data_type found = data_type opp ∧
    ((∀ k other, (k < i)%nat → opps !! k = Some other →
                 ¬ (id other = id opp ∧ data_type other = data_type opp)) →
     j = i ∧ found = opp).
Proof.
  intros Hi.
  destruct (list_find (matches (id opp) (data_type opp)) opps) as [[j found]|] eqn:Hfind.
  - apply list_find_Some in Hfind as (Hj & [Hid Htype] & Hfirst).
    exists j, found. split; [done|].
    assert (j ≤ i)%nat as Hle.
    { destruct (decide (j ≤ i)%nat) as [|Hlt]; [done|].
      destruct (Hfirst i opp Hi ltac:(lia)). by split. }
    split; [done|]. split; [done|]. split; [done|].
    intros Hunique.
    destruct (decide (j = i)) as [->|Hne]; [split; [done|congruence]|].
    destruct (Hunique j found ltac:(lia) Hj). by split.
  - apply list_find_None in Hfind. rewrite Forall_forall in Hfind.
    destruct (Hfind opp); [by eapply list_elem_of_lookup_2|by split].
Qed.

Lemma card_finds_a_stored_record_witness :
  ∃ j found,
    list_find (matches 7 "speaking") [sample 7 None None None None; speakingAsExec acme_talk]
    = Some (j, found) ∧
    (j ≤ 1)%nat ∧ id found = 7 ∧ data_type found = "speaking" ∧
    ((∀ k other, (k < 1)%nat →
        [sample 7 None None None None; speakingAsExec acme_talk] !! k = Some other →
        ¬ (id other = 7 ∧ data_type other = "speaking")) →
     j = 1%nat ∧ found = speakingAsExec acme_talk).
Proof.
  exact (card_finds_a_stored_record
           [sample 7 None None None None; speakingAsExec acme_talk] 1
           (speakingAsExec acme_talk) eq_refl).
Defined.

(** ** Requirements *)

Lemma chars_inj s1 s2 : list_ascii_of_string s1 = list_ascii_of_string s2 → s1 = s2.
Proof.
  intros Heq. rewrite <- (string_of_list_ascii_of_string s1),
    <- (string_of_list_ascii_of_string s2). by rewrite Heq.
Qed.

Lemma chars_rev_app s1 s2 :
  list_ascii_of_string (String.rev_app s1 s2)
  = rev_append (list_ascii_of_string s1) (list_ascii_of_string s2).
Proof. revert s2. induction s1 as [|c s1 IH]; intros s2; simpl; [done|by rewrite IH]. Qed.

Lemma chars_rev s : list_ascii_of_string (String.rev s) = reverse (list_ascii_of_string s).
Proof. apply chars_rev_app. Qed.

Lemma string_rev_involutive s : String.rev (String.rev s) = s.
Proof. apply chars_inj. by rewrite !chars_rev, reverse_involutive. Qed.

Lemma trim_start_suffix s :
  list_ascii_of_string (trim_start s) `suffix_of` list_ascii_of_string s.
Proof.
  induction s as [|c s IH]; simpl; [done|].
  destruct (Ascii.is_space c); [by apply suffix_cons_r|done].
Qed.

Lemma trim_start_head s c :
  head (list_ascii_of_string (trim_start s)) = Some c → Ascii.is_space c = false.
Proof.
  induction s as [|c' s IH]; simpl; [done|].
  destruct (Ascii.is_space c') eqn:Hc'; [done|]. simpl. by intros [= <-].
Qed.

Lemma trim_start_fixed s :
  (∀ c, head (list_ascii_of_string s) = Some c → Ascii.is_space c = false) →
  trim_start s = s.
Proof. destruct s as [|c s]; simpl; [done|]. intros Hc. by rewrite Hc. Qed.

Lemma trim_chars_suffix s :
  ∃ before after,
    list_ascii_of_string s = before ++ list_ascii_of_string (trim s) ++ after.
Proof.
  unfold trim. rewrite chars_rev.
  destruct (trim_start_suffix s) as [before Hs].
  destruct (trim_start_suffix (String.rev (trim_start s))) as [after Hr].
  rewrite chars_rev in Hr.
  exists before, (reverse after). rewrite Hs. f_equal.
  rewrite <- reverse_app, <- Hr. by rewrite reverse_involutive.
Qed.

Lemma trim_comma_free s : comma_free s → comma_free (trim s).
Proof.
  unfold comma_free. destruct (trim_chars_suffix s) as (before & after & ->).
  rewrite !Forall_app. tauto.
Qed.

Lemma trim_trim s : trim (trim s) = trim s.
Proof.
  unfold trim at 2 3.
  set (t := trim_start s). set (u := trim_start (String.rev t)).
  assert (trim_start u = u) as Hu.
  { apply trim_start_fixed, trim_start_head. }
  assert (trim_start (String.rev u) = String.rev u) as Hru.
  { apply trim_start_fixed. intros c. rewrite chars_rev, head_reverse. intros Hlast.
    destruct (trim_start_suffix (String.rev t)) as [before Hr]. fold u in Hr.
    assert (last (list_ascii_of_string (String.rev t)) = Some c) as Hlast'.
    { rewrite Hr, last_app, Hlast. done. }
    rewrite chars_rev, last_reverse in Hlast'.
    by apply (trim_start_head s). }
  unfold trim. by rewrite Hru, string_rev_involutive, Hu.
Qed.

Lemma split_commas_cons s : ∃ piece pieces, split_commas s = piece :: pieces.
Proof.
  induction s as [|c s (piece & pieces & IH)]; simpl; [by eexists _, _|].
  case_decide; [by eexists _, _|]. rewrite IH. by eexists _, _.
Qed.

Lemma split_commas_comma_free s : Forall comma_free (split_commas s).
Proof.
  induction s as [|c s IH]; simpl; [by repeat constructor|].
  case_decide as Hc; [constructor; [by constructor|done]|].
  destruct (split_commas s) as [|piece pieces]; [by repeat constructor|].
  inversion_clear IH. constructor; [|done]. by constructor.
Qed.

Lemma split_commas_app a b :
  comma_free a →
  split_commas (String.app a (String "," b)) = a :: split_commas b.
Proof.
  induction a as [|c a IH]; intros Ha.
  { change (split_commas (String "," b) = "" :: split_commas b).
    reflexivity. }
  inversion_clear Ha as [|?? Hc Ha'].
  change (split_commas (String c (String.app a (String "," b)))
          = String c a :: split_commas b).
  simpl. rewrite decide_False by done. by rewrite IH.
Qed.

Lemma split_commas_one a : comma_free a → split_commas a = [a].
Proof.
  induction a as [|c a IH]; intros Ha; simpl; [done|].
  inversion_clear Ha as [|?? Hc Ha']. rewrite decide_False by done.
  by rewrite IH.
Qed.

Lemma trim_split_commas_space s :
  trim <$> split_commas (String " " s) = trim <$> split_commas s.
Proof.
  simpl. by destruct (split_commas_cons s) as (piece & pieces & ->).
Qed.

Lemma parse_requirements_join reqs :
  Forall entry reqs → parse_requirements (join ", " reqs) = reqs.
Proof.
  unfold parse_requirements, join.
  induction 1 as [|req reqs (Hne & Htrim & Hfree) Hreqs IH]; [done|].
  destruct reqs as [|req' reqs].
  { simpl. rewrite split_commas_one by done. simpl.
    rewrite Htrim. by rewrite filter_cons_True. }
  change (String.concat ", " (req :: req' :: reqs))
    with (String.app req (String "," (String " " (String.concat ", " (req' :: reqs))))).
  rewrite split_commas_app by done.
  rewrite fmap_cons, Htrim, trim_split_commas_space.
  rewrite filter_cons_True by done. by rewrite IH.
Qed.

Lemma parse_requirements_entries text : Forall entry (parse_requirements text).
Proof.
  unfold parse_requirements. apply Forall_forall. intros req Hreq.
  apply list_elem_of_filter in Hreq as [Hne Hreq].
  apply list_elem_of_fmap in Hreq as (piece & -> & Hpiece).
  split; [done|]. split; [apply trim_trim|].
  apply trim_comma_free.
  pose proof (split_commas_comma_free text) as Hfree.
  rewrite Forall_forall in Hfree. by apply Hfree.
Qed.

(** X21. What the form keeps of the requirements text: every requirement
    read from the field is not empty, has no white space around it and no
    comma in it, whatever was typed; and writing those requirements back
    to the field and reading them again gives the same list. *)
Theorem requirements_are_entries text :
  Forall entry (parse_requirements text) ∧
  parse_requirements (join ", " (parse_requirements text)) = parse_requirements text.
Proof.
  split; [apply parse_requirements_entries|].
  apply parse_requirements_join, parse_requirements_entries.
Qed.



(** ** The age shown on a card *)

(** X23. The age [getTimeAgo] shows depends on the time elapsed, counted
    in whole units rounded down: minutes below one hour (fewer than 60, and
    a negative number for a date in the future), hours from one hour to one
    day (1 to 23), days from one day on. *)
Theorem getTimeAgo_ranges now date :
  let age := now - date in
  (age < 3600000 →
   getTimeAgo now date = pretty (age / 60000) +:+ " min ago" ∧
   age / 60000 < 60 ∧ (age < 0 → age / 60000 < 0)) ∧
  (3600000 ≤ age < 86400000 →
   getTimeAgo now date = pretty (age / 3600000) +:+ "h ago" ∧
   1 ≤ age / 3600000 < 24) ∧
  (86400000 ≤ age →
   getTimeAgo now date = pretty (age / 86400000) +:+ "d ago" ∧
   1 ≤ age / 86400000).
Proof.
  intros age. unfold getTimeAgo. fold age.
  change (1000 * 60) with 60000. change (1000 * 60 * 60) with 3600000.
  change (1000 * 60 * 60 * 24) with 86400000.
  assert (age / 60000 < 60 ↔ age < 3600000) as Hmins.
  { split; intros Hlt.
    - destruct (decide (age < 3600000)) as [|Hge]; [done|].
      assert (60 ≤ age / 60000); [|lia]. apply Z.div_le_lower_bound; lia.
    - apply Z.div_lt_upper_bound; lia. }
  assert (age / 3600000 < 24 ↔ age < 86400000) as Hhours.
  { split; intros Hlt.
    - destruct (decide (age < 86400000)) as [|Hge]; [done|].
      assert (24 ≤ age / 3600000); [|lia]. apply Z.div_le_lower_bound; lia.
    - apply Z.div_lt_upper_bound; lia. }
  split; [|split].
  - intros Hage. rewrite decide_True by tauto.
    split; [done|]. split; [tauto|].
    intros Hfuture. apply Z.div_lt_upper_bound; lia.
  - intros [Hlow Hhigh]. rewrite decide_False by (rewrite Hmins; lia).
    rewrite decide_True by tauto.
    split; [done|]. split; [apply Z.div_le_lower_bound; lia|tauto].
  - intros Hage. rewrite decide_False by (rewrite Hmins; lia).
    rewrite decide_False by (rewrite Hhours; lia).
    split; [done|]. apply Z.div_le_lower_bound; lia.
Qed.

Lemma getTimeAgo_ranges_witness :
  getTimeAgo 1700000000000 1699990000000 = pretty 2 +:+ "h ago".
Proof.
  destruct (getTimeAgo_ranges 1700000000000 1699990000000) as (_ & Hhours & _).
  destruct Hhours as [Hshown _]; [lia|]. exact Hshown.
Defined.

(** ** Type filters *)

Lemma filter_speakingAsExec kind (speaking : list opportunity) :
  filter (λ opp, type opp = Some kind) (speakingAsExec <$> speaking)
  = if decide (kind = "speaking") then speakingAsExec <$> speaking else [].
Proof.
  induction speaking as [|opp speaking IH]; [by case_decide|].
  rewrite fmap_cons. case_decide as Hkind.
  - rewrite filter_cons_True by (simpl; congruence). by rewrite IH.
  - rewrite filter_cons_False by (simpl; congruence). exact IH.
Qed.

(** X24. What a type filter shows of the merged list: the generic records
    of that type, in their order, followed, under the filter "speaking", by
    every record of the speaking collection; under any other type filter no
    record of the speaking collection is shown. *)
Theorem type_filter_of_the_merged_list generic speaking st :
  opportunities st = mergeOpportunities generic speaking →
  currentFilter st ≠ "all" →
  filteredOpportunities st
  = filter (λ opp, type opp = Some (currentFilter st)) generic
    ++ (if decide (currentFilter st = "speaking") then speakingAsExec <$> speaking
        else []).
Proof.
  intros Hmerged Hfilter. unfold filteredOpportunities.
  rewrite decide_True by done. rewrite Hmerged. unfold mergeOpportunities.
  by rewrite filter_app, filter_speakingAsExec.
Qed.

Lemma type_filter_of_the_merged_list_witness :
  filteredOpportunities
    (Manager (mergeOpportunities [board_seat] [acme_talk]) [acme_talk]
       "speaking" "deadline" None)
  = [speakingAsExec acme_talk].
Proof.
  exact (type_filter_of_the_merged_list [board_seat] [acme_talk]
           (Manager (mergeOpportunities [board_seat] [acme_talk]) [acme_talk]
              "speaking" "deadline" None)
           eq_refl ltac:(done)).
Defined.
